(** * The manifestclient mutation tracker (pkg/manifestclient/mutation_tracker.go)

    A shallow embedding of [AllActionsTracker] and [actionTracker] over an
    explicit store of Go objects, and the properties of its insertion, query
    and copy operations.

    Go values are modelled as follows.
    - [Action] is a Go string, so a Rocq [string]; [<] on Go strings is the
      bytewise lexicographic order, which is [String.ltb] here.
    - A pointer is a location in a typed store.  A [*actionTracker] may be
      nil (the zero value a map index yields for a missing key): it is an
      [option loc], and [None] is nil.  The receiver of an
      [AllActionsTracker] method is a location; a location that holds no
      tracker stands for an invalid receiver, on which every method panics.
    - A Go map is a reference to a mutable table: the struct field
      [actionToTracker] holds [None] (the nil map) or the location of a map
      object, and the map object is a [gmap Action loc].  Two trackers with
      the same location in that field would share their table; that they
      never do is proved, not assumed.
    - A slice [[]T] that is only ever appended to is a [list T].
    - A record of type [T] is a value: the tracker never writes to one.
    - A panic is an outcome of its own; the store it leaves behind is kept,
      as a recovering caller would find it.
    - A [range] over a map visits the entries in an order Go does not fix;
      the operations that range take the order as a parameter. *)

From stdpp Require Import gmap strings list fin_maps sorting.

Local Open Scope string_scope.
Local Open Scope list_scope.

(** ** Actions *)

Abbreviation Action := string (only parsing).

Definition ActionApply : Action := "Apply".
Definition ActionApplyStatus : Action := "ApplyStatus".
Definition ActionUpdate : Action := "Update".
Definition ActionUpdateStatus : Action := "UpdateStatus".
Definition ActionCreate : Action := "Create".
Definition ActionDelete : Action := "Delete".

Definition AllActions : gset Action :=
  {[ ActionApply; ActionApplyStatus; ActionUpdate; ActionUpdateStatus;
     ActionCreate; ActionDelete ]}.

(** ** Outcomes of a call *)

Inductive panic : Set :=
  | NilDereference   (* runtime error: invalid memory address or nil pointer dereference *)
  | CodingError      (* panic("coding error") *)
  | TypeAssertion    (* interface conversion: the dynamic type is not T *)
  | NilMapAssign.    (* assignment to entry in nil map *)

Inductive result (A : Type) : Type :=
  | Ok (x : A)
  | Panic (e : panic).
Arguments Ok {A} x.
Arguments Panic {A} e.

Global Instance panic_eq_dec : EqDecision panic.
Proof. solve_decision. Defined.

Abbreviation loc := positive (only parsing).

(** k8s.io/apimachinery/pkg/util/sets: [KeySet] collects the keys of a map
    and [List] returns the members of a set as a sorted slice. *)
Definition sets_KeySet {V} (m : gmap Action V) : gset Action := dom m.
Definition sets_List (s : gset Action) : list Action :=
  merge_sort String.le (elements s).

Section Tracker.
(** [T] is the record type the tracker is instantiated at.  The interface
    [SerializedRequestish] is declared outside this file; the two methods
    the tracker calls are parameters: [GetAction request] is
    [request.GetSerializedRequest().Action], and [DeepCopyT v] is the
    interface value [v.DeepCopy()], whose dynamic type is [T] or is not. *)
Context {T Other : Type}.

Inductive SerializedRequestish : Type :=
  | IsT (v : T)
  | NotT (o : Other).

Variable GetAction : T → Action.
Variable DeepCopyT : T → SerializedRequestish.

(** type actionTracker[T] struct { action Action; requests []T } *)
Record actionTracker : Type := mkActionTracker {
  action : Action;
  requests : list T;
}.

(** type AllActionsTracker[T] struct { actionToTracker map[Action]*actionTracker[T] } *)
Record AllActionsTracker : Type := mkAllActionsTracker {
  actionToTracker : option loc;
}.

(** The store: one table of objects per Go type. *)
Record heap : Type := mkHeap {
  trackers : gmap loc AllActionsTracker;
  maps : gmap loc (gmap Action loc);
  cells : gmap loc actionTracker;
}.

Definition empty_heap : heap := mkHeap ∅ ∅ ∅.

(** *** The monad of Go calls: state passing, with panics *)

Definition M (A : Type) : Type := heap → heap * result A.

Definition ret {A} (x : A) : M A := λ h, (h, Ok x).
Definition throw {A} (e : panic) : M A := λ h, (h, Panic e).
Definition bind {A B} (m : M A) (f : A → M B) : M B :=
  λ h, match m h with
       | (h', Ok x) => f x h'
       | (h', Panic e) => (h', Panic e)
       end.

Notation "x ←← m ;; k" := (bind m (λ x, k))
  (at level 100, m at next level, right associativity, only parsing).
Notation "m ;;; k" := (bind m (λ _, k))
  (at level 100, right associativity, only parsing).

(** for _, x := range xs { body(x) } over a slice *)
Fixpoint for_each {A} (xs : list A) (body : A → M unit) : M unit :=
  match xs with
  | [] => ret tt
  | x :: xs' => body x ;;; for_each xs' body
  end.

(** *** Primitive memory operations *)

Definition load_tracker (a : loc) : M AllActionsTracker :=
  λ h, match trackers h !! a with
       | Some t => (h, Ok t)
       | None => (h, Panic NilDereference)
       end.
Definition store_tracker (a : loc) (t : AllActionsTracker) : M unit :=
  λ h, (mkHeap (<[a := t]> (trackers h)) (maps h) (cells h), Ok tt).
Definition new_tracker (t : AllActionsTracker) : M loc :=
  λ h, let a := fresh (dom (trackers h)) in
       (mkHeap (<[a := t]> (trackers h)) (maps h) (cells h), Ok a).

Definition load_map (mref : loc) : M (gmap Action loc) :=
  λ h, match maps h !! mref with
       | Some m => (h, Ok m)
       | None => (h, Panic NilDereference)
       end.
Definition store_map (mref : loc) (m : gmap Action loc) : M unit :=
  λ h, (mkHeap (trackers h) (<[mref := m]> (maps h)) (cells h), Ok tt).
(** make(map[Action]*actionTracker[T]) and the literal map[...]{} *)
Definition make_map : M loc :=
  λ h, let mref := fresh (dom (maps h)) in
       (mkHeap (trackers h) (<[mref := ∅]> (maps h)) (cells h), Ok mref).

Definition load_cell (a : option loc) : M actionTracker :=
  λ h, match a with
       | Some l =>
           match cells h !! l with
           | Some c => (h, Ok c)
           | None => (h, Panic NilDereference)
           end
       | None => (h, Panic NilDereference)
       end.
Definition store_cell (a : option loc) (c : actionTracker) : M unit :=
  λ h, match a with
       | Some l => (mkHeap (trackers h) (maps h) (<[l := c]> (cells h)), Ok tt)
       | None => (h, Panic NilDereference)
       end.
Definition new_cell (c : actionTracker) : M loc :=
  λ h, let l := fresh (dom (cells h)) in
       (mkHeap (trackers h) (maps h) (<[l := c]> (cells h)), Ok l).

(** m[k] on a possibly nil map: the zero value (nil) when the key is
    missing or the map is nil. *)
Definition map_index (m : option loc) (k : Action) : M (option loc) :=
  match m with
  | None => ret None
  | Some mref => tbl ←← load_map mref;; ret (tbl !! k)
  end.
(** m[k] = v *)
Definition map_assign (m : option loc) (k : Action) (v : loc) : M unit :=
  match m with
  | None => throw NilMapAssign
  | Some mref => tbl ←← load_map mref;; store_map mref (<[k := v]> tbl)
  end.

(** The entries a [range] over a map visits.  Go leaves the order
    unspecified: [rng] picks it, and any [rng] that enumerates the entries
    is a possible run. *)
Definition range_map (rng : gmap Action loc → list (Action * loc))
    (m : option loc) : M (list (Action * loc)) :=
  match m with
  | None => ret []
  | Some mref => tbl ←← load_map mref;; ret (rng tbl)
  end.

Definition valid_range (rng : gmap Action loc → list (Action * loc)) : Prop :=
  ∀ m, rng m ≡ₚ map_to_list m.

(** v.DeepCopy().(T) *)
Definition assert_T (i : SerializedRequestish) : M T :=
  match i with
  | IsT v => ret v
  | NotT _ => throw TypeAssertion
  end.

(** *** actionTracker *)

(** lines 98-103 *)
Definition actionTracker_AddRequest (a : option loc) (request : T) : M unit :=
  c ←← load_cell a;;
  if decide (action c ≠ GetAction request) then throw CodingError
  else store_cell a (mkActionTracker (action c) (requests c ++ [request])).

(** lines 105-107 *)
Definition actionTracker_Mutations (a : option loc) : M (list T) :=
  c ←← load_cell a;; ret (requests c).

(** lines 109-119 *)
Definition actionTracker_DeepCopy (a : option loc) : M loc :=
  c ←← load_cell a;;
  ret_ ←← new_cell (mkActionTracker (action c) []);;
  for_each (requests c) (λ v,
    r ←← load_cell (Some ret_);;
    v' ←← assert_T (DeepCopyT v);;
    store_cell (Some ret_) (mkActionTracker (action r) (requests r ++ [v']))) ;;;
  ret ret_.

(** *** AllActionsTracker *)

(** lines 48-52 *)
Definition NewAllActionsTracker : M loc :=
  mref ←← make_map;;
  new_tracker (mkAllActionsTracker (Some mref)).

(** The zero value: new(AllActionsTracker[T]), or &AllActionsTracker[T]{}. *)
Definition zero_AllActionsTracker : M loc :=
  new_tracker (mkAllActionsTracker None).

(** lines 60-69 *)
Definition AllActionsTracker_AddRequest (a : loc) (request : T) : M unit :=
  t ←← load_tracker a;;
  (match actionToTracker t with
   | None => mref ←← make_map;; store_tracker a (mkAllActionsTracker (Some mref))
   | Some _ => ret tt
   end) ;;;
  let action := GetAction request in
  t ←← load_tracker a;;
  found ←← map_index (actionToTracker t) action;;
  (match found with
   | None =>
       l ←← new_cell (mkActionTracker action []);;
       t ←← load_tracker a;;
       map_assign (actionToTracker t) action l
   | Some _ => ret tt
   end) ;;;
  t ←← load_tracker a;;
  target ←← map_index (actionToTracker t) action;;
  actionTracker_AddRequest target request.

(** lines 54-58 *)
Definition AllActionsTracker_AddRequests (a : loc) (requests : list T) : M unit :=
  for_each requests (λ request, AllActionsTracker_AddRequest a request).

(** lines 71-73 *)
Definition AllActionsTracker_ListActions (a : loc) : M (list Action) :=
  t ←← load_tracker a;;
  match actionToTracker t with
  | None => ret (sets_List (sets_KeySet (∅ : gmap Action loc)))
  | Some mref => tbl ←← load_map mref;; ret (sets_List (sets_KeySet tbl))
  end.

(** lines 75-77 *)
Definition AllActionsTracker_RequestsForAction (a : loc) (action : Action) : M (list T) :=
  t ←← load_tracker a;;
  target ←← map_index (actionToTracker t) action;;
  actionTracker_Mutations target.

(** The loop of lines 81-83, started from the slice [acc]. *)
Fixpoint AllRequests_loop (entries : list (Action * loc)) (acc : list T) : M (list T) :=
  match entries with
  | [] => ret acc
  | (_, currActionTracker) :: rest =>
      ms ←← actionTracker_Mutations (Some currActionTracker);;
      AllRequests_loop rest (acc ++ ms)
  end.

(** lines 79-85 *)
Definition AllActionsTracker_AllRequests rng (a : loc) : M (list T) :=
  t ←← load_tracker a;;
  entries ←← range_map rng (actionToTracker t);;
  AllRequests_loop entries [].

(** The body of the loop of lines 92-94: ret.actionToTracker[k] = v.DeepCopy() *)
Definition DeepCopy_body (ret_ : loc) : Action * loc → M unit :=
  λ '(k, v),
    v' ←← actionTracker_DeepCopy (Some v);;
    r ←← load_tracker ret_;;
    map_assign (actionToTracker r) k v'.

(** lines 87-96 *)
Definition AllActionsTracker_DeepCopy rng (a : loc) : M loc :=
  mref ←← make_map;;
  ret_ ←← new_tracker (mkAllActionsTracker (Some mref));;
  t ←← load_tracker a;;
  entries ←← range_map rng (actionToTracker t);;
  for_each entries (DeepCopy_body ret_) ;;;
  ret ret_.

(** ** The abstract content of a tracker *)

(** What a tracker holds, read off the store: for each key of its map, the
    requests of the actionTracker the key points to. *)
Definition table_view (h : heap) (m : gmap Action loc) : gmap Action (list T) :=
  omap (λ l, requests <$> cells h !! l) m.

Definition view (h : heap) (a : loc) : option (gmap Action (list T)) :=
  t ← trackers h !! a;
  match actionToTracker t with
  | None => Some ∅
  | Some mref => table_view h <$> maps h !! mref
  end.

(** The map object of a tracker, empty for the nil map. *)
Definition tracker_table (h : heap) (a : loc) : gmap Action loc :=
  match trackers h !! a with
  | Some (mkAllActionsTracker (Some mref)) => default ∅ (maps h !! mref)
  | _ => ∅
  end.

(** The content after recording [rs], in order, on top of [v]. *)
Definition record_all (v : gmap Action (list T)) (rs : list T)
    : gmap Action (list T) :=
  foldl (λ v r, <[GetAction r := default [] (v !! GetAction r) ++ [r]]> v) v rs.

(** ** The invariant of the store

    No map field dangles, every map entry points to an actionTracker of the
    key's action holding at least one request, no two trackers share a map
    object, and no actionTracker is reachable under two keys or from two
    maps. *)
Record heap_inv (h : heap) : Prop := mkHeapInv {
  inv_tracker_map : ∀ a mref,
    trackers h !! a = Some (mkAllActionsTracker (Some mref)) →
    is_Some (maps h !! mref);
  inv_map_cell : ∀ mref m k l,
    maps h !! mref = Some m → m !! k = Some l →
    ∃ c, cells h !! l = Some c ∧ action c = k ∧ requests c ≠ [];
  inv_map_owner : ∀ a b mref,
    trackers h !! a = Some (mkAllActionsTracker (Some mref)) →
    trackers h !! b = Some (mkAllActionsTracker (Some mref)) → a = b;
  inv_cell_owner : ∀ m1 t1 k1 m2 t2 k2 l,
    maps h !! m1 = Some t1 → t1 !! k1 = Some l →
    maps h !! m2 = Some t2 → t2 !! k2 = Some l → m1 = m2 ∧ k1 = k2;
}.

(** No map entry points to [l]. *)
Definition unowned (h : heap) (l : loc) : Prop :=
  ∀ mref m k, maps h !! mref = Some m → m !! k ≠ Some l.

(** Every stored request reports the action it is filed under. *)
Definition records_inv (h : heap) : Prop :=
  ∀ mref m k l c,
    maps h !! mref = Some m → m !! k = Some l → cells h !! l = Some c →
    Forall (λ r, GetAction r = k) (requests c).

(** Deep copies report the action of their original.  Part of the contract
    of [SerializedRequestish]; assumed only where stated. *)
Definition copy_keeps_action : Prop :=
  ∀ v v', DeepCopyT v = IsT v' → GetAction v' = GetAction v.

(** ** States reachable through the public operations

    A program starts with an empty store and calls the constructor, takes
    zero values, and calls the methods on trackers it holds; a panic may be
    recovered from, so the store a panicking call leaves is reachable too. *)

Inductive step : heap → heap → Prop :=
  | step_new h : step h (NewAllActionsTracker h).1
  | step_zero h : step h (zero_AllActionsTracker h).1
  | step_AddRequest h a r :
      is_Some (trackers h !! a) →
      step h (AllActionsTracker_AddRequest a r h).1
  | step_AddRequests h a rs :
      is_Some (trackers h !! a) →
      step h (AllActionsTracker_AddRequests a rs h).1
  | step_ListActions h a :
      is_Some (trackers h !! a) →
      step h (AllActionsTracker_ListActions a h).1
  | step_RequestsForAction h a k :
      is_Some (trackers h !! a) →
      step h (AllActionsTracker_RequestsForAction a k h).1
  | step_AllRequests h rng a :
      is_Some (trackers h !! a) → valid_range rng →
      step h (AllActionsTracker_AllRequests rng a h).1
  | step_DeepCopy h rng a :
      is_Some (trackers h !! a) → valid_range rng →
      step h (AllActionsTracker_DeepCopy rng a h).1.

Definition reachable (h : heap) : Prop := rtc step empty_heap h.

(** The requests the loop of actionTracker.DeepCopy has appended when it
    ends, and how it ends: every copy, or the copies made before the first
    failed type assertion. *)
Fixpoint copy_requests (vs : list T) : list T * result unit :=
  match vs with
  | [] => ([], Ok tt)
  | v :: vs' =>
      match DeepCopyT v with
      | IsT v' => let '(copied, res) := copy_requests vs' in (v' :: copied, res)
      | NotT _ => ([], Panic TypeAssertion)
      end
  end.

(** ** Calling AddRequest one record at a time

    The reading of "repeated single calls": each call starts in the store
    the previous one left, and a panic ends the run. *)
Definition AddRequest_one_at_a_time (a : loc) (requests : list T) (h : heap)
    : heap * result unit :=
  foldl (λ st request,
           match st.2 with
           | Ok _ => AllActionsTracker_AddRequest a request st.1
           | Panic e => st
           end) (h, Ok tt) requests.

(** ** Notions the claims are stated with *)

(** A tracker that holds nothing: its map is nil, as in the zero value, or
    empty, as the constructor leaves it. *)
Definition empty_tracker (h : heap) (a : loc) : Prop :=
  match trackers h !! a with
  | Some (mkAllActionsTracker None) => True
  | Some (mkAllActionsTracker (Some mref)) => maps h !! mref = Some ∅
  | None => False
  end.

(** A run of insertions: each batch is one call of AddRequests; a call of
    AddRequest is the batch of one record. *)
Definition insert_all (a : loc) (batches : list (list T)) : M unit :=
  for_each batches (AllActionsTracker_AddRequests a).

(** [r'] is the deep copy of [r]. *)
Definition copy_of (r r' : T) : Prop := DeepCopyT r = IsT r'.

(** Tracker [a1] in store [h1] and tracker [a2] in store [h2] answer every
    query alike: the same ListActions, the same RequestsForAction for every
    action (the same panic where it panics), and the same AllRequests as a
    multiset, whatever order the range over the map takes. *)
Definition same_results (h1 : heap) (a1 : loc) (h2 : heap) (a2 : loc) : Prop :=
  (AllActionsTracker_ListActions a1 h1).2 = (AllActionsTracker_ListActions a2 h2).2
  ∧ (∀ k, (AllActionsTracker_RequestsForAction a1 k h1).2
          = (AllActionsTracker_RequestsForAction a2 k h2).2)
  ∧ (∀ rng1 rng2, valid_range rng1 → valid_range rng2 →
       ∃ o1 o2, (AllActionsTracker_AllRequests rng1 a1 h1).2 = Ok o1
                ∧ (AllActionsTracker_AllRequests rng2 a2 h2).2 = Ok o2
                ∧ o1 ≡ₚ o2).

(** Tracker [a'] answers every query as [a] does, with each record replaced
    by its deep copy. *)
Definition copied_results (h : heap) (a a' : loc) : Prop :=
  (AllActionsTracker_ListActions a h).2 = (AllActionsTracker_ListActions a' h).2
  ∧ (∀ k, match (AllActionsTracker_RequestsForAction a k h).2 with
          | Ok rs => ∃ rs', (AllActionsTracker_RequestsForAction a' k h).2 = Ok rs'
                            ∧ Forall2 copy_of rs rs'
          | Panic e => (AllActionsTracker_RequestsForAction a' k h).2 = Panic e
          end)
  ∧ (∀ rng1 rng2, valid_range rng1 → valid_range rng2 →
       ∃ o o' oc, (AllActionsTracker_AllRequests rng1 a h).2 = Ok o
                  ∧ (AllActionsTracker_AllRequests rng2 a' h).2 = Ok o'
                  ∧ Forall2 copy_of o oc ∧ oc ≡ₚ o').

(** ** Basic facts *)

Lemma bind_Ok {A B} (m : M A) (f : A → M B) h h' x :
  m h = (h', Ok x) → bind m f h = f x h'.
Proof. unfold bind. by intros ->. Qed.

Lemma bind_Panic {A B} (m : M A) (f : A → M B) h h' e :
  m h = (h', Panic e) → bind m f h = (h', Panic e).
Proof. unfold bind. by intros ->. Qed.

Lemma for_each_app {A} (xs ys : list A) body h :
  for_each (xs ++ ys) body h = bind (for_each xs body) (λ _, for_each ys body) h.
Proof.
  revert h. induction xs as [|x xs IH]; intros h; simpl.
  - done.
  - unfold bind. destruct (body x h) as [h1 [[]|e]]; [|done].
    rewrite IH. by unfold bind.
Qed.

Ltac unfold_ops :=
  unfold actionTracker_AddRequest, actionTracker_Mutations,
    map_index, map_assign, range_map, assert_T,
    load_tracker, store_tracker, new_tracker, load_map, store_map, make_map,
    load_cell, store_cell, new_cell, bind, ret, throw in *.

Ltac heap_simpl :=
  repeat (progress (cbn [trackers maps cells actionToTracker action requests
                         fst snd app])
          || rewrite lookup_insert_eq || rewrite lookup_empty
          || rewrite insert_insert_eq).

(** ** What AddRequest does to the store, case by case *)

Lemma AddRequest_nil_receiver a r h :
  trackers h !! a = None →
  AllActionsTracker_AddRequest a r h = (h, Panic NilDereference).
Proof.
  intros Ha. unfold AllActionsTracker_AddRequest. unfold_ops. by rewrite Ha.
Qed.

Lemma AddRequest_nil_map a r h :
  trackers h !! a = Some (mkAllActionsTracker None) →
  AllActionsTracker_AddRequest a r h =
    (mkHeap (<[a := mkAllActionsTracker (Some (fresh (dom (maps h))))]> (trackers h))
            (<[fresh (dom (maps h)) := {[GetAction r := fresh (dom (cells h))]}]> (maps h))
            (<[fresh (dom (cells h)) := mkActionTracker (GetAction r) [r]]> (cells h)),
     Ok tt).
Proof.
  intros Ha. unfold AllActionsTracker_AddRequest. unfold_ops.
  rewrite Ha. heap_simpl. case_decide; [done|]. heap_simpl.
  by rewrite insert_empty.
Qed.

Lemma AddRequest_new_key a r h mref m :
  trackers h !! a = Some (mkAllActionsTracker (Some mref)) →
  maps h !! mref = Some m →
  m !! GetAction r = None →
  AllActionsTracker_AddRequest a r h =
    (mkHeap (trackers h)
            (<[mref := <[GetAction r := fresh (dom (cells h))]> m]> (maps h))
            (<[fresh (dom (cells h)) := mkActionTracker (GetAction r) [r]]> (cells h)),
     Ok tt).
Proof.
  intros Ha Hm Hk. unfold AllActionsTracker_AddRequest. unfold_ops.
  rewrite Ha. heap_simpl. rewrite Ha. heap_simpl. rewrite Hm, Hk. heap_simpl.
  rewrite Ha. heap_simpl. rewrite Hm. heap_simpl. rewrite Ha. heap_simpl.
  case_decide; [done|]. by heap_simpl.
Qed.

Lemma AddRequest_old_key a r h mref m l :
  trackers h !! a = Some (mkAllActionsTracker (Some mref)) →
  maps h !! mref = Some m →
  m !! GetAction r = Some l →
  AllActionsTracker_AddRequest a r h =
    match cells h !! l with
    | None => (h, Panic NilDereference)
    | Some c =>
        if decide (action c ≠ GetAction r) then (h, Panic CodingError)
        else (mkHeap (trackers h) (maps h)
                (<[l := mkActionTracker (action c) (requests c ++ [r])]> (cells h)),
              Ok tt)
    end.
Proof.
  intros Ha Hm Hk. unfold AllActionsTracker_AddRequest. unfold_ops.
  rewrite Ha. heap_simpl. rewrite Ha. heap_simpl. rewrite Hm, Hk. heap_simpl.
  rewrite Ha. heap_simpl. rewrite Hm. heap_simpl. rewrite Hk.
  destruct (cells h !! l) as [c|]; [|done].
  by destruct (decide (action c ≠ GetAction r)).
Qed.

Lemma AddRequest_panic_keeps_store a r h h' e :
  AllActionsTracker_AddRequest a r h = (h', Panic e) → h' = h.
Proof.
  destruct (trackers h !! a) as [[[mref|]]|] eqn:Ha.
  - destruct (maps h !! mref) as [m|] eqn:Hm.
    + destruct (m !! GetAction r) as [l|] eqn:Hk.
      * rewrite (AddRequest_old_key _ _ _ _ _ _ Ha Hm Hk).
        destruct (cells h !! l) as [c|]; [case_decide|]; congruence.
      * by rewrite (AddRequest_new_key _ _ _ _ _ Ha Hm Hk).
    + unfold AllActionsTracker_AddRequest. unfold_ops.
      rewrite Ha. heap_simpl. rewrite Ha. heap_simpl. rewrite Hm. congruence.
  - by rewrite (AddRequest_nil_map _ _ _ Ha).
  - rewrite (AddRequest_nil_receiver _ _ _ Ha). congruence.
Qed.

(** ** Reading the abstract content *)

Lemma lookup_table_view h m k :
  table_view h m !! k = l ← m !! k; requests <$> cells h !! l.
Proof. unfold table_view. by rewrite lookup_omap. Qed.

Lemma view_nil_map h a :
  trackers h !! a = Some (mkAllActionsTracker None) → view h a = Some ∅.
Proof. unfold view. by intros ->. Qed.

Lemma view_map h a mref m :
  trackers h !! a = Some (mkAllActionsTracker (Some mref)) →
  maps h !! mref = Some m → view h a = Some (table_view h m).
Proof. unfold view. intros -> . simpl. by intros ->. Qed.

Lemma view_is_Some h a :
  heap_inv h → is_Some (trackers h !! a) → is_Some (view h a).
Proof.
  intros Hinv [[[mref|]] Ha].
  - destruct (inv_tracker_map _ Hinv _ _ Ha) as [m Hm].
    rewrite (view_map _ _ _ _ Ha Hm). eauto.
  - rewrite (view_nil_map _ _ Ha). eauto.
Qed.

Lemma view_Some_allocated h a v : view h a = Some v → is_Some (trackers h !! a).
Proof. unfold view. destruct (trackers h !! a); [eauto|done]. Qed.

(** The keys of the content are the keys of the map, and no key holds an
    empty sequence. *)
Lemma dom_table_view h mref m :
  heap_inv h → maps h !! mref = Some m → dom (table_view h m) = dom m.
Proof.
  intros Hinv Hm. apply set_eq. intros k.
  rewrite !elem_of_dom, lookup_table_view.
  destruct (m !! k) as [l|] eqn:Hk; simpl.
  - destruct (inv_map_cell _ Hinv _ _ _ _ Hm Hk) as (c & -> & _). simpl.
    split; eauto.
  - split; intros [? ?]; done.
Qed.

Lemma table_view_nonempty h mref m k rs :
  heap_inv h → maps h !! mref = Some m → table_view h m !! k = Some rs → rs ≠ [].
Proof.
  intros Hinv Hm. rewrite lookup_table_view.
  destruct (m !! k) as [l|] eqn:Hk; simpl; [|done].
  destruct (inv_map_cell _ Hinv _ _ _ _ Hm Hk) as (c & -> & _ & Hne). simpl.
  congruence.
Qed.

Lemma view_nonempty h a v k rs :
  heap_inv h → view h a = Some v → v !! k = Some rs → rs ≠ [].
Proof.
  intros Hinv Hv Hk. unfold view in Hv.
  destruct (trackers h !! a) as [[[mref|]]|]; simplify_eq/=.
  destruct (maps h !! mref) as [m|] eqn:Hm; simplify_eq/=.
  eauto using table_view_nonempty.
Qed.

(** ** Elementary changes of the store

    Each operation of the tracker is a composition of a few elementary
    changes; each is shown to keep the invariant, with its effect on the
    content of every tracker. *)

Lemma unallocated_unowned h l : heap_inv h → cells h !! l = None → unowned h l.
Proof.
  intros Hinv Hl mref m k Hm Hk.
  destruct (inv_map_cell _ Hinv _ _ _ _ Hm Hk) as (c & ? & _). congruence.
Qed.

Lemma fresh_cell_unowned h : heap_inv h → unowned h (fresh (dom (cells h))).
Proof.
  intros Hinv. apply unallocated_unowned; [done|].
  apply not_elem_of_dom, is_fresh.
Qed.

Lemma table_view_set_unowned h l c m mref :
  unowned h l → maps h !! mref = Some m →
  table_view (mkHeap (trackers h) (maps h) (<[l := c]> (cells h))) m
  = table_view h m.
Proof.
  intros Hl Hm. apply map_eq. intros k. rewrite !lookup_table_view.
  destruct (m !! k) as [l'|] eqn:Hk; simpl; [|done].
  rewrite lookup_insert_ne; [done|]. intros ->. by eapply Hl.
Qed.

(** Writing a cell no map points to. *)
Lemma set_unowned_cell h l c :
  heap_inv h → unowned h l →
  let h' := mkHeap (trackers h) (maps h) (<[l := c]> (cells h)) in
  heap_inv h' ∧ (∀ b, view h' b = view h b) ∧ (records_inv h → records_inv h').
Proof.
  intros Hinv Hl h'. split_and!.
  - split; cbn [trackers maps cells h'].
    + apply Hinv.
    + intros mref m k l' Hm Hk.
      rewrite lookup_insert_ne; [by eapply inv_map_cell|].
      intros ->. by eapply Hl.
    + apply Hinv.
    + apply Hinv.
  - intros b. unfold view. cbn [trackers maps cells h'].
    destruct (trackers h !! b) as [[[mref|]]|]; simpl; [|done..].
    destruct (maps h !! mref) as [m|] eqn:Hm; simpl; [|done].
    f_equal. by eapply table_view_set_unowned.
  - intros Hrec mref m k l' c' Hm Hk. cbn [trackers maps cells h'].
    rewrite lookup_insert_ne; [by eapply Hrec|].
    intros ->. by eapply Hl.
Qed.

(** Writing a cell that a map entry points to. *)
Lemma set_owned_cell h mref m k l c :
  heap_inv h → maps h !! mref = Some m → m !! k = Some l →
  action c = k → requests c ≠ [] →
  let h' := mkHeap (trackers h) (maps h) (<[l := c]> (cells h)) in
  heap_inv h'
  ∧ (∀ b, trackers h !! b = Some (mkAllActionsTracker (Some mref)) →
          view h' b = Some (<[k := requests c]> (table_view h m)))
  ∧ (∀ b, trackers h !! b ≠ Some (mkAllActionsTracker (Some mref)) →
          view h' b = view h b)
  ∧ (records_inv h → Forall (λ r, GetAction r = k) (requests c) → records_inv h').
Proof.
  intros Hinv Hm Hk Hact Hne h'. split_and!.
  - split; cbn [trackers maps cells h'].
    + apply Hinv.
    + intros mref' m' k' l' Hm' Hk'.
      destruct (decide (l' = l)) as [->|Hll].
      * rewrite lookup_insert_eq.
        destruct (inv_cell_owner _ Hinv _ _ _ _ _ _ _ Hm Hk Hm' Hk') as [_ <-].
        eauto.
      * rewrite lookup_insert_ne by done. by eapply inv_map_cell.
    + apply Hinv.
    + apply Hinv.
  - intros b Hb. unfold view. cbn [trackers maps cells h'].
    rewrite Hb. simpl. rewrite Hm. simpl. f_equal.
    apply map_eq. intros k'. rewrite lookup_table_view. cbn [cells].
    destruct (decide (k' = k)) as [->|Hkk].
    + rewrite lookup_insert_eq, Hk. simpl. by rewrite lookup_insert_eq.
    + rewrite lookup_insert_ne, lookup_table_view by done.
      destruct (m !! k') as [l'|] eqn:Hk'; simpl; [|done].
      rewrite lookup_insert_ne; [done|]. intros ->.
      destruct (inv_cell_owner _ Hinv _ _ _ _ _ _ _ Hm Hk Hm Hk'); done.
  - intros b Hb. unfold view. cbn [trackers maps cells h'].
    destruct (trackers h !! b) as [[[mref'|]]|] eqn:Hb'; simpl; [|done..].
    destruct (maps h !! mref') as [m'|] eqn:Hm'; simpl; [|done].
    f_equal. apply map_eq. intros k'. rewrite !lookup_table_view. cbn [cells].
    destruct (m' !! k') as [l'|] eqn:Hk'; simpl; [|done].
    rewrite lookup_insert_ne; [done|]. intros ->.
    destruct (inv_cell_owner _ Hinv _ _ _ _ _ _ _ Hm Hk Hm' Hk') as [-> _].
    done.
  - intros Hrec Hall mref' m' k' l' c' Hm' Hk'. cbn [trackers maps cells h'].
    destruct (decide (l' = l)) as [->|Hll].
    + rewrite lookup_insert_eq. intros [= <-].
      destruct (inv_cell_owner _ Hinv _ _ _ _ _ _ _ Hm Hk Hm' Hk') as [_ <-].
      done.
    + rewrite lookup_insert_ne by done. by eapply Hrec.
Qed.

(** make(map...): a new, empty map object that no tracker holds yet. *)
Lemma add_empty_map h mref :
  heap_inv h → maps h !! mref = None →
  let h' := mkHeap (trackers h) (<[mref := ∅]> (maps h)) (cells h) in
  heap_inv h' ∧ (∀ b, view h' b = view h b) ∧ (records_inv h → records_inv h')
  ∧ (∀ l, unowned h l → unowned h' l).
Proof.
  intros Hinv Hfresh h'. subst h'.
  assert (Hold : ∀ b, trackers h !! b ≠ Some (mkAllActionsTracker (Some mref))).
  { intros b Hb. destruct (inv_tracker_map _ Hinv _ _ Hb). congruence. }
  split_and!.
  - split; cbn [trackers maps cells].
    + intros a mref' Ha. rewrite lookup_insert_ne by (intros ->; by eapply Hold).
      by eapply inv_tracker_map.
    + intros mref' m k l [[_ <-]|[_ Hm]]%lookup_insert_Some Hk; [done|].
      by eapply inv_map_cell.
    + apply Hinv.
    + intros m1 t1 k1 m2 t2 k2 l [[_ <-]|[_ H1]]%lookup_insert_Some Hk1;
        [done|].
      intros [[_ <-]|[_ H2]]%lookup_insert_Some Hk2; [done|].
      by eapply inv_cell_owner.
  - intros b. unfold view. cbn [trackers maps cells].
    destruct (trackers h !! b) as [[[mref'|]]|] eqn:Hb; simpl; [|done..].
    rewrite lookup_insert_ne by (intros ->; by eapply Hold). done.
  - unfold records_inv; cbn [trackers maps cells]. intros Hrec mref' m k l c [[_ <-]|[_ Hm]]%lookup_insert_Some Hk; [done|].
    by eapply Hrec.
  - unfold unowned; cbn [trackers maps cells]. intros l Hl mref' m k [[_ <-]|[_ Hm]]%lookup_insert_Some; [done|].
    by eapply Hl.
Qed.

(** Pointing a tracker's field at a map object that no tracker holds. *)
Lemma set_tracker_map h a mref m :
  heap_inv h → maps h !! mref = Some m →
  (∀ b, trackers h !! b ≠ Some (mkAllActionsTracker (Some mref))) →
  let h' := mkHeap (<[a := mkAllActionsTracker (Some mref)]> (trackers h))
                   (maps h) (cells h) in
  heap_inv h' ∧ view h' a = Some (table_view h m)
  ∧ (∀ b, b ≠ a → view h' b = view h b) ∧ (records_inv h → records_inv h')
  ∧ (∀ l, unowned h l → unowned h' l).
Proof.
  intros Hinv Hm Hfree h'. subst h'. split_and!; [|..|done|done].
  - split; cbn [trackers maps cells]; [| apply Hinv | | apply Hinv].
    + intros b mref' [[_ [= <-]]|[_ Hb]]%lookup_insert_Some; [eauto|].
      by eapply inv_tracker_map.
    + intros b1 b2 mref' [[? ?]|[? Hb1]]%lookup_insert_Some
        [[? ?]|[? Hb2]]%lookup_insert_Some; simplify_eq; try done.
      * by destruct (Hfree b2).
      * by destruct (Hfree b1).
      * by eapply inv_map_owner.
  - unfold view. cbn [trackers maps cells]. rewrite lookup_insert_eq. simpl.
    by rewrite Hm.
  - intros b Hb. unfold view. cbn [trackers maps cells].
    by rewrite lookup_insert_ne.
Qed.

(** Allocating a zero-value tracker. *)
Lemma set_tracker_nil h a :
  heap_inv h →
  let h' := mkHeap (<[a := mkAllActionsTracker None]> (trackers h))
                   (maps h) (cells h) in
  heap_inv h' ∧ view h' a = Some ∅
  ∧ (∀ b, b ≠ a → view h' b = view h b) ∧ (records_inv h → records_inv h').
Proof.
  intros Hinv h'. subst h'. split_and!; [|..|done].
  - split; cbn [trackers maps cells]; [| apply Hinv | | apply Hinv].
    + intros b mref' [[_ [=]]|[_ Hb]]%lookup_insert_Some.
      by eapply inv_tracker_map.
    + intros b1 b2 mref' [[_ [=]]|[_ Hb1]]%lookup_insert_Some
        [[_ [=]]|[_ Hb2]]%lookup_insert_Some.
      by eapply inv_map_owner.
  - unfold view. cbn [trackers maps cells]. by rewrite lookup_insert_eq.
  - intros b Hb. unfold view. cbn [trackers maps cells].
    by rewrite lookup_insert_ne.
Qed.

(** m[k] = l for a key the map lacks and a cell no map points to. *)
Lemma assign_entry h mref m k l c :
  heap_inv h → maps h !! mref = Some m → m !! k = None →
  cells h !! l = Some c → action c = k → requests c ≠ [] → unowned h l →
  let h' := mkHeap (trackers h) (<[mref := <[k := l]> m]> (maps h)) (cells h) in
  heap_inv h'
  ∧ (∀ b, trackers h !! b = Some (mkAllActionsTracker (Some mref)) →
          view h' b = Some (<[k := requests c]> (table_view h m)))
  ∧ (∀ b, trackers h !! b ≠ Some (mkAllActionsTracker (Some mref)) →
          view h' b = view h b)
  ∧ (records_inv h → Forall (λ r, GetAction r = k) (requests c) → records_inv h')
  ∧ (∀ l', l' ≠ l → unowned h l' → unowned h' l').
Proof.
  intros Hinv Hm Hk Hl Hact Hne Hfree h'. subst h'. split_and!.
  - split; cbn [trackers maps cells].
    + intros a mref' Ha. destruct (decide (mref' = mref)) as [->|?].
      * rewrite lookup_insert_eq. eauto.
      * rewrite lookup_insert_ne by done. by eapply inv_tracker_map.
    + intros mref' m' k' l' [[<- <-]|[_ Hm']]%lookup_insert_Some.
      * intros [[<- <-]|[_ Hk']]%lookup_insert_Some; [eauto|].
        by eapply inv_map_cell.
      * intros Hk'. by eapply inv_map_cell.
    + apply Hinv.
    + intros m1 t1 k1 m2 t2 k2 l' H1 Hk1 H2 Hk2.
      apply lookup_insert_Some in H1 as [[? ?]|[? H1]];
        apply lookup_insert_Some in H2 as [[? ?]|[? H2]]; simplify_eq;
        repeat match goal with
          | H : <[_:=_]> _ !! _ = Some _ |- _ =>
              apply lookup_insert_Some in H as [[? ?]|[? ?]]
          end; simplify_eq;
        first [ done
              | by exfalso; eapply Hfree; eauto
              | by eapply (inv_cell_owner _ Hinv); eauto ].
  - intros b Hb. unfold view. cbn [trackers maps cells].
    rewrite Hb. simpl. rewrite lookup_insert_eq. simpl. f_equal.
    apply map_eq. intros k'. rewrite lookup_table_view. cbn [cells].
    destruct (decide (k' = k)) as [->|Hkk].
    + rewrite !lookup_insert_eq. simpl. by rewrite Hl.
    + by rewrite !lookup_insert_ne, lookup_table_view.
  - intros b Hb. unfold view. cbn [trackers maps cells].
    destruct (trackers h !! b) as [[[mref'|]]|] eqn:Hb'; simpl; [|done..].
    rewrite lookup_insert_ne by congruence. done.
  - unfold records_inv; cbn [trackers maps cells]. intros Hrec Hall mref' m' k' l' c' [[<- <-]|[_ Hm']]%lookup_insert_Some.
    + intros [[<- <-]|[_ Hk']]%lookup_insert_Some; cbn [cells].
      * intros ?. by simplify_eq.
      * by eapply Hrec.
    + cbn [cells]. by eapply Hrec.
  - unfold unowned; cbn [trackers maps cells]. intros l' Hll Hl' mref' m' k' [[<- <-]|[_ Hm']]%lookup_insert_Some.
    + intros [[_ ?]|[_ Hk']]%lookup_insert_Some; [done|]. by eapply Hl'.
    + by eapply Hl'.
Qed.

(** ** AddRequest on a well-formed store *)

Lemma AddRequest_spec_nil_map h a r :
  heap_inv h → trackers h !! a = Some (mkAllActionsTracker None) →
  ∃ h', AllActionsTracker_AddRequest a r h = (h', Ok tt) ∧ heap_inv h'
    ∧ view h' a = Some {[GetAction r := [r]]}
    ∧ (∀ b, b ≠ a → view h' b = view h b)
    ∧ dom (trackers h') = dom (trackers h)
    ∧ (records_inv h → records_inv h').
Proof.
  intros Hinv Ha. rewrite (AddRequest_nil_map _ _ _ Ha).
  set (mref := fresh (dom (maps h))). set (l := fresh (dom (cells h))).
  set (k := GetAction r).
  assert (Hmref : maps h !! mref = None) by apply not_elem_of_dom, is_fresh.
  assert (Hl : unowned h l) by by apply fresh_cell_unowned.
  destruct (add_empty_map h mref Hinv Hmref) as (I1 & V1 & R1 & U1).
  set (h1 := mkHeap (trackers h) (<[mref := ∅]> (maps h)) (cells h)) in *.
  assert (Hfree : ∀ b, trackers h1 !! b ≠ Some (mkAllActionsTracker (Some mref))).
  { intros b Hb. destruct (inv_tracker_map _ Hinv _ _ Hb). congruence. }
  destruct (set_tracker_map h1 a mref ∅ I1 (lookup_insert_eq _ _ _) Hfree)
    as (I2 & V2 & F2 & R2 & U2).
  set (h2 := mkHeap (<[a := mkAllActionsTracker (Some mref)]> (trackers h1))
               (maps h1) (cells h1)) in *.
  destruct (set_unowned_cell h2 l (mkActionTracker k [r]) I2 (U2 _ (U1 _ Hl)))
    as (I3 & V3 & R3).
  set (h3 := mkHeap (trackers h2) (maps h2)
               (<[l := mkActionTracker k [r]]> (cells h2))) in *.
  destruct (assign_entry h3 mref ∅ k l (mkActionTracker k [r]) I3)
    as (I4 & V4 & F4 & R4 & _);
    [apply lookup_insert_eq | apply lookup_empty | apply lookup_insert_eq
    | done | done | exact (U2 _ (U1 _ Hl)) |].
  cbn [trackers maps cells h1 h2 h3] in *.
  rewrite insert_insert_eq, insert_empty in I4, V4, F4, R4.
  eexists. split_and!; [done|exact I4|..].
  - rewrite (V4 a) by apply lookup_insert_eq. by f_equal.
  - intros b Hb. rewrite F4, V3, F2, V1; [done..|].
    rewrite lookup_insert_ne by done. intros Hb'.
    destruct (inv_tracker_map _ Hinv _ _ Hb'). congruence.
  - cbn [trackers]. apply dom_insert_lookup_L. eauto.
  - intros Hrec. apply R4; [auto|]. by repeat constructor.
Qed.

Lemma AddRequest_spec_new_key h a r mref m :
  heap_inv h → trackers h !! a = Some (mkAllActionsTracker (Some mref)) →
  maps h !! mref = Some m → m !! GetAction r = None →
  ∃ h', AllActionsTracker_AddRequest a r h = (h', Ok tt) ∧ heap_inv h'
    ∧ view h' a = Some (<[GetAction r := [r]]> (table_view h m))
    ∧ (∀ b, b ≠ a → view h' b = view h b)
    ∧ dom (trackers h') = dom (trackers h)
    ∧ (records_inv h → records_inv h').
Proof.
  intros Hinv Ha Hm Hk. rewrite (AddRequest_new_key _ _ _ _ _ Ha Hm Hk).
  set (l := fresh (dom (cells h))). set (k := GetAction r) in *.
  assert (Hl : unowned h l) by by apply fresh_cell_unowned.
  destruct (set_unowned_cell h l (mkActionTracker k [r]) Hinv Hl)
    as (I1 & V1 & R1).
  set (h1 := mkHeap (trackers h) (maps h)
               (<[l := mkActionTracker k [r]]> (cells h))) in *.
  destruct (assign_entry h1 mref m k l (mkActionTracker k [r]) I1)
    as (I2 & V2 & F2 & R2 & _);
    [done | done | apply lookup_insert_eq | done | done | exact Hl |].
  cbn [trackers maps cells h1] in *.
  eexists. split_and!; [done|exact I2|..|done|].
  - rewrite (V2 a) by done. cbn [requests].
    do 2 f_equal. exact (table_view_set_unowned h l _ m mref Hl Hm).
  - intros b Hb. rewrite F2, V1; [done|].
    intros Hb'. by destruct (inv_map_owner _ Hinv _ _ _ Ha Hb').
  - intros Hrec. apply R2; [auto|]. by repeat constructor.
Qed.

Lemma AddRequest_spec_old_key h a r mref m l :
  heap_inv h → trackers h !! a = Some (mkAllActionsTracker (Some mref)) →
  maps h !! mref = Some m → m !! GetAction r = Some l →
  ∃ h' c, AllActionsTracker_AddRequest a r h = (h', Ok tt) ∧ heap_inv h'
    ∧ cells h !! l = Some c
    ∧ view h' a = Some (<[GetAction r := requests c ++ [r]]> (table_view h m))
    ∧ (∀ b, b ≠ a → view h' b = view h b)
    ∧ dom (trackers h') = dom (trackers h)
    ∧ (records_inv h → records_inv h').
Proof.
  intros Hinv Ha Hm Hk. rewrite (AddRequest_old_key _ _ _ _ _ _ Ha Hm Hk).
  destruct (inv_map_cell _ Hinv _ _ _ _ Hm Hk) as (c & Hc & Hact & Hne).
  rewrite Hc. rewrite decide_False by (intros ?; done).
  destruct (set_owned_cell h mref m (GetAction r) l
              (mkActionTracker (action c) (requests c ++ [r])) Hinv Hm Hk)
    as (I1 & V1 & F1 & R1); [done | by destruct (requests c) |].
  eexists _, c. split_and!; [done|exact I1|done|..|done|].
  - by rewrite (V1 a).
  - intros b Hb. apply F1. intros Hb'.
    by destruct (inv_map_owner _ Hinv _ _ _ Ha Hb').
  - intros Hrec. apply R1; [done|]. cbn [requests].
    apply Forall_app. split; [by eapply Hrec | by repeat constructor].
Qed.

(** The effect of one insertion on the content of every tracker. *)
Lemma AddRequest_spec h a r v :
  heap_inv h → view h a = Some v →
  ∃ h', AllActionsTracker_AddRequest a r h = (h', Ok tt) ∧ heap_inv h'
    ∧ view h' a
      = Some (<[GetAction r := default [] (v !! GetAction r) ++ [r]]> v)
    ∧ (∀ b, b ≠ a → view h' b = view h b)
    ∧ dom (trackers h') = dom (trackers h)
    ∧ (records_inv h → records_inv h').
Proof.
  intros Hinv Hv.
  destruct (view_Some_allocated _ _ _ Hv) as [[[mref|]] Ha].
  - destruct (inv_tracker_map _ Hinv _ _ Ha) as [m Hm].
    rewrite (view_map _ _ _ _ Ha Hm) in Hv. injection Hv as <-.
    destruct (m !! GetAction r) as [l|] eqn:Hk.
    + destruct (AddRequest_spec_old_key h a r mref m l)
        as (h' & c & ? & ? & Hc & ? & ? & ? & ?); [done..|].
      exists h'. split_and!; try done.
      by rewrite lookup_table_view, Hk; simpl; rewrite Hc.
    + destruct (AddRequest_spec_new_key h a r mref m)
        as (h' & ? & ? & ? & ? & ? & ?); [done..|].
      exists h'. split_and!; try done.
      by rewrite lookup_table_view, Hk.
  - rewrite (view_nil_map _ _ Ha) in Hv. injection Hv as <-.
    destruct (AddRequest_spec_nil_map h a r)
      as (h' & ? & ? & ? & ? & ? & ?); [done..|].
    exists h'. by split_and!.
Qed.

(** ** AddRequests *)

Lemma AddRequests_spec h a rs v :
  heap_inv h → view h a = Some v →
  ∃ h', AllActionsTracker_AddRequests a rs h = (h', Ok tt) ∧ heap_inv h'
    ∧ view h' a = Some (record_all v rs)
    ∧ (∀ b, b ≠ a → view h' b = view h b)
    ∧ dom (trackers h') = dom (trackers h)
    ∧ (records_inv h → records_inv h').
Proof.
  unfold AllActionsTracker_AddRequests.
  revert h v. induction rs as [|r rs IH]; intros h v Hinv Hv; simpl.
  - exists h. by split_and!.
  - destruct (AddRequest_spec h a r v Hinv Hv)
      as (h1 & Hrun & I1 & V1 & F1 & D1 & R1).
    destruct (IH h1 _ I1 V1) as (h2 & Hrun2 & I2 & V2 & F2 & D2 & R2).
    exists h2. rewrite (bind_Ok _ _ _ _ _ Hrun). split_and!; try done.
    + intros b Hb. by rewrite F2, F1.
    + congruence.
    + auto.
Qed.

Lemma record_all_lookup v rs k :
  record_all v rs !! k =
    match v !! k, filter (λ r, GetAction r = k) rs with
    | None, [] => None
    | o, l => Some (default [] o ++ l)
    end.
Proof.
  unfold record_all. revert v. induction rs as [|r rs IH]; intros v; simpl.
  - destruct (v !! k); simpl; [by rewrite app_nil_r | done].
  - rewrite IH. rewrite filter_cons. destruct (decide (GetAction r = k)) as [->|Hne].
    + rewrite lookup_insert_eq. simpl. rewrite <-app_assoc. simpl.
      by destruct (v !! k).
    + by rewrite lookup_insert_ne.
Qed.

Lemma record_all_empty_lookup rs k :
  record_all ∅ rs !! k =
    match filter (λ r, GetAction r = k) rs with
    | [] => None
    | l => Some l
    end.
Proof. by rewrite record_all_lookup, lookup_empty. Qed.

(** ** The queries, in terms of the content *)

Lemma RequestsForAction_view h a v k :
  view h a = Some v →
  AllActionsTracker_RequestsForAction a k h =
    (h, match v !! k with Some rs => Ok rs | None => Panic NilDereference end).
Proof.
  unfold view, AllActionsTracker_RequestsForAction. unfold_ops.
  destruct (trackers h !! a) as [[[mref|]]|]; simpl; [|by intros [= <-]|done].
  destruct (maps h !! mref) as [m|]; simpl; [|done]. intros [= <-].
  rewrite lookup_table_view. destruct (m !! k) as [l|]; simpl; [|done].
  by destruct (cells h !! l).
Qed.

Lemma RequestsForAction_nil_receiver h a k :
  trackers h !! a = None →
  AllActionsTracker_RequestsForAction a k h = (h, Panic NilDereference).
Proof.
  unfold AllActionsTracker_RequestsForAction. unfold_ops. by intros ->.
Qed.

Lemma ListActions_view h a v :
  heap_inv h → view h a = Some v →
  AllActionsTracker_ListActions a h = (h, Ok (sets_List (dom v))).
Proof.
  intros Hinv. unfold view, AllActionsTracker_ListActions. unfold_ops.
  destruct (trackers h !! a) as [[[mref|]]|]; simpl; [|by intros [= <-]|done].
  destruct (maps h !! mref) as [m|] eqn:Hm; simpl; [|done]. intros [= <-].
  unfold sets_KeySet. by erewrite dom_table_view.
Qed.

Lemma ListActions_nil_receiver h a :
  trackers h !! a = None →
  AllActionsTracker_ListActions a h = (h, Panic NilDereference).
Proof. unfold AllActionsTracker_ListActions. unfold_ops. by intros ->. Qed.

Lemma AllRequests_loop_spec h entries acc :
  (∀ k l, (k, l) ∈ entries → is_Some (cells h !! l)) →
  AllRequests_loop entries acc h =
    (h, Ok (acc ++ concat ((λ e, default [] (requests <$> cells h !! e.2))
                            <$> entries))).
Proof.
  revert acc. induction entries as [|[k l] entries IH]; intros acc Hall; simpl.
  - unfold ret. by rewrite app_nil_r.
  - destruct (Hall k l) as [c Hc]; [left|].
    unfold_ops. rewrite Hc. simpl. rewrite IH.
    + by rewrite <-app_assoc.
    + intros k' l' ?. apply (Hall k' l'). by right.
Qed.

(** AllRequests returns the sequences of the content, concatenated in the
    order the range visits the keys. *)
Lemma AllRequests_view rng h a v :
  heap_inv h → valid_range rng → view h a = Some v →
  ∃ entries, entries ≡ₚ map_to_list v
    ∧ AllActionsTracker_AllRequests rng a h = (h, Ok (concat entries.*2)).
Proof.
  intros Hinv Hrng. unfold view, AllActionsTracker_AllRequests. unfold_ops.
  destruct (trackers h !! a) as [[[mref|]]|]; simpl; [| |done].
  - destruct (maps h !! mref) as [m|] eqn:Hm; simpl; [|done]. intros [= <-].
    set (g := λ l, default [] (requests <$> cells h !! l)).
    assert (Hv : table_view h m = g <$> m).
    { apply map_eq. intros k. rewrite lookup_table_view, lookup_fmap.
      destruct (m !! k) as [l|] eqn:Hk; simpl; [|done]. unfold g.
      by destruct (inv_map_cell _ Hinv _ _ _ _ Hm Hk) as (c & -> & _). }
    exists (prod_map id g <$> rng m). split.
    + rewrite Hv, map_to_list_fmap. by rewrite (Hrng m).
    + rewrite AllRequests_loop_spec.
      * simpl. do 3 f_equal. rewrite <-list_fmap_compose.
        apply list_fmap_ext. by intros ? [k l] ?.
      * intros k l Hkl. rewrite (Hrng m) in Hkl.
        apply elem_of_map_to_list in Hkl.
        destruct (inv_map_cell _ Hinv _ _ _ _ Hm Hkl) as (c & -> & _). eauto.
  - intros [= <-]. exists []. by rewrite map_to_list_empty.
Qed.

Lemma AllRequests_nil_receiver rng h a :
  trackers h !! a = None →
  AllActionsTracker_AllRequests rng a h = (h, Panic NilDereference).
Proof. unfold AllActionsTracker_AllRequests. unfold_ops. by intros ->. Qed.

(** ** Allocation of trackers *)

Lemma NewAllActionsTracker_spec h :
  heap_inv h →
  ∃ h' a, NewAllActionsTracker h = (h', Ok a) ∧ heap_inv h'
    ∧ trackers h !! a = None ∧ view h' a = Some ∅
    ∧ trackers h' !! a = Some (mkAllActionsTracker (Some (fresh (dom (maps h)))))
    ∧ (∀ b, b ≠ a → view h' b = view h b)
    ∧ dom (trackers h') = {[a]} ∪ dom (trackers h)
    ∧ (records_inv h → records_inv h').
Proof.
  intros Hinv. unfold NewAllActionsTracker. unfold_ops. heap_simpl.
  set (mref := fresh (dom (maps h))). set (a := fresh (dom (trackers h))).
  assert (Hmref : maps h !! mref = None) by apply not_elem_of_dom, is_fresh.
  assert (Ha : trackers h !! a = None) by apply not_elem_of_dom, is_fresh.
  destruct (add_empty_map h mref Hinv Hmref) as (I1 & V1 & R1 & U1).
  set (h1 := mkHeap (trackers h) (<[mref := ∅]> (maps h)) (cells h)) in *.
  assert (Hfree : ∀ b, trackers h1 !! b ≠ Some (mkAllActionsTracker (Some mref))).
  { intros b Hb. destruct (inv_tracker_map _ Hinv _ _ Hb). congruence. }
  destruct (set_tracker_map h1 a mref ∅ I1 (lookup_insert_eq _ _ _) Hfree)
    as (I2 & V2 & F2 & R2 & U2).
  eexists _, a. split_and!; [done|exact I2|done|exact V2| |..].
  - cbn [trackers]. by rewrite lookup_insert_eq.
  - intros b Hb. by rewrite F2, V1.
  - cbn [trackers]. by rewrite dom_insert_L.
  - auto.
Qed.

Lemma zero_AllActionsTracker_spec h :
  heap_inv h →
  ∃ h' a, zero_AllActionsTracker h = (h', Ok a) ∧ heap_inv h'
    ∧ trackers h !! a = None ∧ view h' a = Some ∅
    ∧ trackers h' !! a = Some (mkAllActionsTracker None)
    ∧ (∀ b, b ≠ a → view h' b = view h b)
    ∧ dom (trackers h') = {[a]} ∪ dom (trackers h)
    ∧ (records_inv h → records_inv h').
Proof.
  intros Hinv. unfold zero_AllActionsTracker. unfold_ops.
  set (a := fresh (dom (trackers h))).
  assert (Ha : trackers h !! a = None) by apply not_elem_of_dom, is_fresh.
  destruct (set_tracker_nil h a Hinv) as (I1 & V1 & F1 & R1).
  eexists _, a. split_and!; [done|exact I1|done|exact V1| |exact F1| |exact R1].
  - cbn [trackers]. by rewrite lookup_insert_eq.
  - cbn [trackers]. by rewrite dom_insert_L.
Qed.

(** ** actionTracker.DeepCopy *)

Lemma copy_requests_outcome vs :
  (copy_requests vs).2 = Ok tt ∨ (copy_requests vs).2 = Panic TypeAssertion.
Proof.
  induction vs as [|v vs IH]; simpl; [by left|].
  destruct (DeepCopyT v); [|by right].
  by destruct (copy_requests vs).
Qed.

Lemma copy_requests_Ok vs :
  (copy_requests vs).2 = Ok tt ↔ Forall (λ v, ∃ v', DeepCopyT v = IsT v') vs.
Proof.
  induction vs as [|v vs IH]; simpl; [by split; [constructor|]|].
  rewrite Forall_cons. destruct (DeepCopyT v) as [v'|o]; simpl.
  - destruct (copy_requests vs) as [copied res]; simpl in *.
    rewrite IH. split; [eauto|]. by intros [_ ?].
  - split; [done|]. by intros [[? ?] _].
Qed.

Lemma copy_requests_copies vs :
  (copy_requests vs).2 = Ok tt →
  Forall2 (λ v v', DeepCopyT v = IsT v') vs (copy_requests vs).1.
Proof.
  induction vs as [|v vs IH]; simpl; [constructor|].
  destruct (DeepCopyT v) as [v'|o] eqn:Hv; simpl; [|done].
  destruct (copy_requests vs) as [copied res]; simpl in *.
  intros Hres. constructor; auto.
Qed.

Lemma copy_requests_actions vs k :
  (∀ v v', DeepCopyT v = IsT v' → GetAction v' = GetAction v) →
  Forall (λ r, GetAction r = k) vs →
  Forall (λ r, GetAction r = k) (copy_requests vs).1.
Proof.
  intros Hkeep. induction 1 as [|v vs Hv _ IH]; simpl; [constructor|].
  destruct (DeepCopyT v) as [v'|o] eqn:Hc; simpl; [|constructor].
  destruct (copy_requests vs) as [copied res]; simpl in *.
  constructor; [|done]. by rewrite (Hkeep _ _ Hc).
Qed.

Lemma actionTracker_DeepCopy_loop h l k acc vs :
  cells h !! l = Some (mkActionTracker k acc) →
  for_each vs (λ v,
      bind (load_cell (Some l)) (λ r,
      bind (assert_T (DeepCopyT v)) (λ v',
      store_cell (Some l) (mkActionTracker (action r) (requests r ++ [v'])))))
    h
  = (mkHeap (trackers h) (maps h)
       (<[l := mkActionTracker k (acc ++ (copy_requests vs).1)]> (cells h)),
     (copy_requests vs).2).
Proof.
  revert h acc. induction vs as [|v vs IH]; intros h acc Hl; simpl.
  - unfold ret. rewrite app_nil_r, insert_id by done. by destruct h.
  - unfold bind at 1. unfold_ops. rewrite Hl.
    destruct (DeepCopyT v) as [v'|o]; simpl.
    + rewrite (IH _ (acc ++ [v'])) by apply lookup_insert_eq.
      heap_simpl. destruct (copy_requests vs) as [copied res]. simpl.
      by rewrite <-app_assoc.
    + rewrite app_nil_r, insert_id by done. by destruct h.
Qed.

Lemma actionTracker_DeepCopy_run h l c :
  cells h !! l = Some c →
  actionTracker_DeepCopy (Some l) h =
    (mkHeap (trackers h) (maps h)
       (<[fresh (dom (cells h)) :=
            mkActionTracker (action c) (copy_requests (requests c)).1]> (cells h)),
     match (copy_requests (requests c)).2 with
     | Ok _ => Ok (fresh (dom (cells h)))
     | Panic e => Panic e
     end).
Proof.
  intros Hl. unfold actionTracker_DeepCopy.
  rewrite (bind_Ok _ _ h h c) by (unfold load_cell; by rewrite Hl).
  set (l' := fresh (dom (cells h))).
  erewrite bind_Ok by (unfold new_cell; reflexivity).
  unfold bind at 1.
  rewrite (actionTracker_DeepCopy_loop _ l' (action c) [])
    by apply lookup_insert_eq.
  heap_simpl. by destruct (copy_requests (requests c)).2.
Qed.

Lemma actionTracker_DeepCopy_nil h :
  actionTracker_DeepCopy None h = (h, Panic NilDereference).
Proof. done. Qed.

Lemma copy_requests_nonempty vs :
  (copy_requests vs).2 = Ok tt → vs ≠ [] → (copy_requests vs).1 ≠ [].
Proof.
  intros Hok Hne Hnil. apply copy_requests_copies in Hok.
  rewrite Hnil in Hok. by apply Forall2_nil_inv_r in Hok.
Qed.

(** ** AllActionsTracker.DeepCopy *)

Lemma DeepCopy_body_spec h a' mref' M k l c :
  heap_inv h →
  trackers h !! a' = Some (mkAllActionsTracker (Some mref')) →
  maps h !! mref' = Some M → M !! k = None →
  cells h !! l = Some c → action c = k → requests c ≠ [] →
  ∃ h' res, DeepCopy_body a' (k, l) h = (h', res) ∧ heap_inv h'
    ∧ (∀ b, b ≠ a' → view h' b = view h b)
    ∧ trackers h' = trackers h
    ∧ (∀ l0 c0, cells h !! l0 = Some c0 → cells h' !! l0 = Some c0)
    ∧ (copy_keeps_action → records_inv h →
       Forall (λ r, GetAction r = k) (requests c) → records_inv h')
    ∧ match (copy_requests (requests c)).2 with
      | Ok _ =>
          res = Ok tt
          ∧ (∃ l', maps h' !! mref' = Some (<[k := l']> M))
          ∧ view h' a' = Some (<[k := (copy_requests (requests c)).1]>
                                 (table_view h M))
      | Panic e => res = Panic e ∧ e = TypeAssertion
      end.
Proof.
  intros Hinv Ha' HM Hk Hl Hact Hne. unfold DeepCopy_body.
  set (l' := fresh (dom (cells h))).
  set (c' := mkActionTracker (action c) (copy_requests (requests c)).1).
  assert (Hl' : unowned h l') by by apply fresh_cell_unowned.
  assert (Hl'None : cells h !! l' = None) by apply not_elem_of_dom, is_fresh.
  destruct (set_unowned_cell h l' c' Hinv Hl') as (I1 & V1 & R1).
  set (h1 := mkHeap (trackers h) (maps h) (<[l' := c']> (cells h))) in *.
  assert (Hold : ∀ l0 c0, cells h !! l0 = Some c0 → cells h1 !! l0 = Some c0).
  { intros l0 c0 H0. cbn [cells h1]. rewrite lookup_insert_ne; [done|].
    intros <-. congruence. }
  unfold bind at 1. rewrite (actionTracker_DeepCopy_run _ _ _ Hl).
  fold l' c' h1.
  destruct (copy_requests (requests c)).2 as [[]|e] eqn:Hres.
  - unfold_ops. cbn [trackers maps cells h1]. rewrite Ha'. heap_simpl.
    rewrite (HM : maps h1 !! mref' = Some M).
    destruct (assign_entry h1 mref' M k l' c' I1)
      as (I2 & V2 & F2 & R2 & _);
      [done | done | apply lookup_insert_eq | done
      | by apply copy_requests_nonempty | exact Hl' |].
    cbn [trackers maps cells h1] in *.
    eexists _, _. split_and!; [done|exact I2| |done|exact Hold| |done|..].
    + intros b Hb. rewrite F2, V1; [done|].
      intros Hb'. by destruct (inv_map_owner _ Hinv _ _ _ Ha' Hb').
    + intros Hkeep Hrec Hall. apply R2; [auto|].
      cbn [requests c']. rewrite <-Hact in *. by apply copy_requests_actions.
    + cbn [maps]. rewrite lookup_insert_eq. eauto.
    + rewrite (V2 a') by done. cbn [requests c']. do 2 f_equal.
      exact (table_view_set_unowned h l' c' M mref' Hl' HM).
  - destruct (copy_requests_outcome (requests c)) as [?|?]; [congruence|].
    exists h1, (Panic e). split_and!; [done..|auto|done|congruence].
Qed.

Lemma DeepCopy_loop_spec a' mref' entries : ∀ h M,
  heap_inv h →
  trackers h !! a' = Some (mkAllActionsTracker (Some mref')) →
  maps h !! mref' = Some M →
  NoDup entries.*1 →
  (∀ k l, (k, l) ∈ entries →
     M !! k = None ∧ ∃ c, cells h !! l = Some c ∧ action c = k ∧ requests c ≠ []) →
  ∃ h' res, for_each entries (DeepCopy_body a') h = (h', res) ∧ heap_inv h'
    ∧ (∀ b, b ≠ a' → view h' b = view h b)
    ∧ trackers h' = trackers h
    ∧ (∀ l0 c0, cells h !! l0 = Some c0 → cells h' !! l0 = Some c0)
    ∧ (copy_keeps_action → records_inv h →
       (∀ k l c, (k, l) ∈ entries → cells h !! l = Some c →
                 Forall (λ r, GetAction r = k) (requests c)) →
       records_inv h')
    ∧ (res = Ok tt ∨ res = Panic TypeAssertion)
    ∧ (res = Ok tt ↔
       ∀ k l c, (k, l) ∈ entries → cells h !! l = Some c →
                (copy_requests (requests c)).2 = Ok tt)
    ∧ (res = Ok tt →
       ∃ v', view h' a' = Some v' ∧
         ∀ k, v' !! k =
           match (list_to_map entries : gmap Action loc) !! k with
           | Some l => (λ c, (copy_requests (requests c)).1) <$> cells h !! l
           | None => table_view h M !! k
           end).
Proof.
  induction entries as [|[k l] rest IH]; intros h M Hinv Ha' HM Hnd Hent.
  { exists h, (Ok tt). split_and!; try done; [by left| |].
    { split; [|done]. intros _ ? ? ? Hin. by apply elem_of_nil in Hin. }
    intros _. exists (table_view h M). split; [by eapply view_map|].
    intros k. by rewrite list_to_map_nil, lookup_empty. }
  apply NoDup_cons in Hnd as [Hk_rest Hnd]. simpl in Hk_rest.
  destruct (Hent k l) as (Hk & c & Hl & Hact & Hne); [left|].
  destruct (DeepCopy_body_spec h a' mref' M k l c)
    as (h1 & res1 & Hrun1 & I1 & F1 & T1 & C1 & R1 & Hcase); [done..|].
  simpl. destruct (copy_requests (requests c)).2 as [[]|e] eqn:Hres.
  - destruct Hcase as (-> & [l' HM1] & V1).
    rewrite (bind_Ok _ _ _ _ _ Hrun1).
    destruct (IH h1 (<[k := l']> M)) as
      (h2 & res2 & Hrun2 & I2 & F2 & T2 & C2 & R2 & O2 & Hiff & V2);
      [done | by rewrite T1 | done | done | |].
    { intros k2 l2 Hin. destruct (Hent k2 l2) as (Hk2 & c2 & ? & ? & ?);
        [by right|].
      split; [|eauto 10]. rewrite lookup_insert_ne; [done|].
      intros ->. apply Hk_rest. apply list_elem_of_fmap. by exists (k2, l2). }
    exists h2, res2. split_and!; [done|done| |congruence|auto| |done| |].
    + intros b Hb. by rewrite F2, F1.
    + intros Hkeep Hrec Hall. apply R2; [done| |].
      * apply R1; [done..|]. eapply Hall; [left|done].
      * intros k2 l2 c2 Hin Hc2. destruct (Hent k2 l2) as (_ & c2' & Hc2' & _);
          [by right|].
        rewrite (C1 _ _ Hc2') in Hc2. injection Hc2 as <-.
        eapply Hall; [by right|done].
    + rewrite Hiff. split.
      * intros Hall k2 l2 c2 [[= -> ->]|Hin]%elem_of_cons Hc2.
        -- congruence.
        -- eapply Hall; [done|]. by apply C1.
      * intros Hall k2 l2 c2 Hin Hc2.
        destruct (Hent k2 l2) as (_ & c2' & Hc2' & _); [by right|].
        rewrite (C1 _ _ Hc2') in Hc2. injection Hc2 as <-.
        eapply Hall; [by right|done].
    + intros Hok. destruct (V2 Hok) as (v' & Hv' & Hlook).
      exists v'. split; [done|]. intros k0. rewrite Hlook.
      assert (Htv : table_view h1 (<[k := l']> M)
                    = <[k := (copy_requests (requests c)).1]> (table_view h M)).
      { rewrite (view_map h1 a' mref' (<[k := l']> M)) in V1;
          [congruence | by rewrite T1 | done]. }
      destruct (decide (k0 = k)) as [->|Hne0].
      * rewrite (not_elem_of_list_to_map_1 rest k) by done.
        by rewrite Htv, !lookup_insert_eq, Hl.
      * rewrite (lookup_insert_ne _ k k0) by done.
        destruct (list_to_map rest !! k0) as [l2|] eqn:Hl2.
        -- apply elem_of_list_to_map_2 in Hl2.
           destruct (Hent k0 l2) as (_ & c2 & Hc2 & _); [by right|].
           by rewrite Hc2, (C1 _ _ Hc2).
        -- by rewrite Htv, lookup_insert_ne.
  - destruct Hcase as [-> ->]. rewrite (bind_Panic _ _ _ _ _ Hrun1).
    exists h1, (Panic TypeAssertion).
    split_and!; [done..| |by right| |done].
    + intros Hkeep Hrec Hall. apply R1; [done..|]. eapply Hall; [left|done].
    + split; [done|]. intros Hall. specialize (Hall k l c). rewrite Hres in Hall.
      apply Hall; [left|done].
Qed.

Lemma valid_range_NoDup rng (m : gmap Action loc) :
  valid_range rng → NoDup (rng m).*1.
Proof. intros Hrng. rewrite (Hrng m). apply NoDup_fst_map_to_list. Qed.

Lemma valid_range_list_to_map rng (m : gmap Action loc) :
  valid_range rng → list_to_map (rng m) = m.
Proof.
  intros Hrng. rewrite <-(list_to_map_to_list m) at 2.
  apply list_to_map_proper; [by apply valid_range_NoDup | apply Hrng].
Qed.

(** The outcome of DeepCopy on a well-formed store: the copy is a new
    tracker whose content is the copied content of the source; every
    tracker that existed keeps its content. *)
Lemma DeepCopy_spec rng h a v :
  heap_inv h → valid_range rng → view h a = Some v →
  ∃ h' res, AllActionsTracker_DeepCopy rng a h = (h', res) ∧ heap_inv h'
    ∧ (∀ b, is_Some (trackers h !! b) → view h' b = view h b)
    ∧ dom (trackers h') = {[fresh (dom (trackers h))]} ∪ dom (trackers h)
    ∧ (copy_keeps_action → records_inv h → records_inv h')
    ∧ (res = Ok (fresh (dom (trackers h))) ∨ res = Panic TypeAssertion)
    ∧ (res = Ok (fresh (dom (trackers h))) ↔
       ∀ k rs, v !! k = Some rs → (copy_requests rs).2 = Ok tt)
    ∧ (res = Ok (fresh (dom (trackers h))) →
       view h' (fresh (dom (trackers h)))
       = Some ((λ rs, (copy_requests rs).1) <$> v)).
Proof.
  intros Hinv Hrng Hv. unfold AllActionsTracker_DeepCopy.
  set (mref' := fresh (dom (maps h))). set (a' := fresh (dom (trackers h))).
  assert (Hmref' : maps h !! mref' = None) by apply not_elem_of_dom, is_fresh.
  assert (Ha' : trackers h !! a' = None) by apply not_elem_of_dom, is_fresh.
  destruct (add_empty_map h mref' Hinv Hmref') as (I1 & V1 & R1 & U1).
  set (h1 := mkHeap (trackers h) (<[mref' := ∅]> (maps h)) (cells h)) in *.
  assert (Hfree : ∀ b, trackers h1 !! b ≠ Some (mkAllActionsTracker (Some mref'))).
  { intros b Hb. destruct (inv_tracker_map _ Hinv _ _ Hb). congruence. }
  destruct (set_tracker_map h1 a' mref' ∅ I1 (lookup_insert_eq _ _ _) Hfree)
    as (I2 & V2 & F2 & R2 & U2).
  set (h2 := mkHeap (<[a' := mkAllActionsTracker (Some mref')]> (trackers h1))
               (maps h1) (cells h1)) in *.
  rewrite (bind_Ok _ _ h h1 mref') by done.
  rewrite (bind_Ok _ _ h1 h2 a') by done.
  destruct (view_Some_allocated _ _ _ Hv) as [t Ha].
  assert (Hne : a ≠ a') by congruence.
  assert (Ha2 : trackers h2 !! a = Some t).
  { cbn [trackers h2 h1]. by rewrite lookup_insert_ne. }
  rewrite (bind_Ok _ _ h2 h2 t) by (unfold load_tracker; by rewrite Ha2).
  assert (Hold : ∀ b, is_Some (trackers h !! b) → b ≠ a').
  { intros b [? ?] ->. congruence. }
  assert (Hdom : dom (trackers h2) = {[a']} ∪ dom (trackers h)).
  { cbn [trackers h2 h1]. by rewrite dom_insert_L. }
  assert (Htr2 : trackers h2 !! a' = Some (mkAllActionsTracker (Some mref'))).
  { cbn [trackers h2 h1]. by rewrite lookup_insert_eq. }
  destruct t as [[mref|]].
  - destruct (inv_tracker_map _ Hinv _ _ Ha) as [m Hm].
    rewrite (view_map _ _ _ _ Ha Hm) in Hv. injection Hv as <-.
    assert (Hm2 : maps h2 !! mref = Some m).
    { cbn [maps h2 h1]. rewrite lookup_insert_ne; [done|]. congruence. }
    rewrite (bind_Ok _ _ h2 h2 (rng m))
      by (unfold range_map, bind, load_map; cbn [actionToTracker];
          by rewrite Hm2).
    destruct (DeepCopy_loop_spec a' mref' (rng m) h2 ∅)
      as (h3 & res & Hrun & I3 & F3 & T3 & C3 & R3 & O3 & Hiff & V3);
      [done | done | by apply lookup_insert_eq | by apply valid_range_NoDup | |].
    { intros k l Hkl. split; [apply lookup_empty|].
      rewrite (Hrng m) in Hkl. apply elem_of_map_to_list in Hkl.
      by eapply (inv_map_cell _ Hinv). }
    assert (Hall : (∀ k l c, (k, l) ∈ rng m → cells h2 !! l = Some c →
                       (copy_requests (requests c)).2 = Ok tt)
                   ↔ ∀ k rs, table_view h m !! k = Some rs →
                       (copy_requests rs).2 = Ok tt).
    { split.
      - intros Hc k rs. rewrite lookup_table_view.
        destruct (m !! k) as [l|] eqn:Hk; simpl; [|done].
        destruct (cells h !! l) as [c|] eqn:Hl; simpl; [|done].
        intros [= <-]. apply (Hc k l); [|done].
        rewrite (Hrng m). by apply elem_of_map_to_list.
      - intros Hc k l c Hkl Hl. rewrite (Hrng m) in Hkl.
        apply elem_of_map_to_list in Hkl. apply (Hc k).
        rewrite lookup_table_view, Hkl. simpl.
        by rewrite (Hl : cells h !! l = Some c). }
    unfold bind at 1. rewrite Hrun.
    exists h3, (match res with Ok _ => Ok a' | Panic e => Panic e end).
    split_and!; [by destruct res|done| |congruence| | | |].
    + intros b Hb. rewrite F3, F2, V1 by auto. done.
    + intros Hkeep Hrec. apply R3; [done|auto|].
      intros k l c Hkl Hl. rewrite (Hrng m) in Hkl.
      apply elem_of_map_to_list in Hkl. by eapply Hrec.
    + destruct O3 as [-> | ->]; auto.
    + rewrite <-Hall, <-Hiff. destruct O3 as [-> | ->]; split; congruence.
    + intros Hok. assert (Hres : res = Ok tt).
      { destruct O3 as [-> | ->]; [done|congruence]. }
      destruct (V3 Hres) as (v' & -> & Hlook). f_equal.
      apply map_eq. intros k. rewrite Hlook, valid_range_list_to_map by done.
      rewrite lookup_fmap, !lookup_table_view, lookup_empty.
      destruct (m !! k) as [l|]; simpl; [|done].
      cbn [cells h2 h1]. by destruct (cells h !! l).
  - rewrite (view_nil_map _ _ Ha) in Hv. injection Hv as <-.
    exists h2, (Ok a'). split_and!; [done|done| |done|auto|by left| |].
    + intros b Hb. rewrite F2, V1 by auto. done.
    + split; [|done]. intros _ k rs. by rewrite lookup_empty.
    + intros _. rewrite V2. by rewrite fmap_empty.
Qed.

(** ** The invariant holds in every reachable store *)

Lemma heap_inv_empty : heap_inv empty_heap.
Proof. split; cbn [trackers maps cells empty_heap]; intros *; by rewrite lookup_empty. Qed.

Lemma records_inv_empty : records_inv empty_heap.
Proof. intros mref m k l c. cbn. by rewrite lookup_empty. Qed.

Lemma ListActions_keeps_store a h : (AllActionsTracker_ListActions a h).1 = h.
Proof.
  unfold AllActionsTracker_ListActions. unfold_ops.
  destruct (trackers h !! a) as [[[mref|]]|]; simpl; [|done..].
  by destruct (maps h !! mref).
Qed.

Lemma RequestsForAction_keeps_store a k h :
  (AllActionsTracker_RequestsForAction a k h).1 = h.
Proof.
  unfold AllActionsTracker_RequestsForAction. unfold_ops.
  destruct (trackers h !! a) as [[[mref|]]|]; simpl; [|done..].
  destruct (maps h !! mref) as [m|]; simpl; [|done].
  destruct (m !! k) as [l|]; simpl; [|done]. by destruct (cells h !! l).
Qed.

Lemma AllRequests_loop_keeps_store entries acc h :
  (AllRequests_loop entries acc h).1 = h.
Proof.
  revert acc. induction entries as [|[k l] entries IH]; intros acc; simpl; [done|].
  unfold_ops. destruct (cells h !! l); simpl; [apply IH|done].
Qed.

Lemma AllRequests_keeps_store rng a h :
  (AllActionsTracker_AllRequests rng a h).1 = h.
Proof.
  unfold AllActionsTracker_AllRequests, bind, load_tracker, range_map.
  destruct (trackers h !! a) as [[[mref|]]|]; simpl; [| |done].
  - unfold bind, load_map, ret. destruct (maps h !! mref) as [m|]; simpl; [|done].
    apply AllRequests_loop_keeps_store.
  - done.
Qed.

Lemma step_inv h h' :
  step h h' → heap_inv h →
  heap_inv h' ∧ dom (trackers h) ⊆ dom (trackers h')
  ∧ (copy_keeps_action → records_inv h → records_inv h').
Proof.
  intros Hstep Hinv. destruct Hstep as
    [h|h|h a r Ha|h a rs Ha|h a Ha|h a k Ha|h rng a Ha Hrng|h rng a Ha Hrng].
  - destruct (NewAllActionsTracker_spec h Hinv)
      as (h' & a & -> & ? & _ & _ & _ & _ & Hd & ?). simpl.
    split_and!; [done|rewrite Hd; apply union_subseteq_r|auto].
  - destruct (zero_AllActionsTracker_spec h Hinv)
      as (h' & a & -> & ? & _ & _ & _ & _ & Hd & ?). simpl.
    split_and!; [done|rewrite Hd; apply union_subseteq_r|auto].
  - destruct (view_is_Some h a Hinv Ha) as [v Hv].
    destruct (AddRequest_spec h a r v Hinv Hv) as (h' & -> & ? & _ & _ & Hd & ?).
    simpl. split_and!; [done|by rewrite Hd|auto].
  - destruct (view_is_Some h a Hinv Ha) as [v Hv].
    destruct (AddRequests_spec h a rs v Hinv Hv) as (h' & -> & ? & _ & _ & Hd & ?).
    simpl. split_and!; [done|by rewrite Hd|auto].
  - by rewrite ListActions_keeps_store.
  - by rewrite RequestsForAction_keeps_store.
  - by rewrite AllRequests_keeps_store.
  - destruct (view_is_Some h a Hinv Ha) as [v Hv].
    destruct (DeepCopy_spec rng h a v Hinv Hrng Hv)
      as (h' & res & -> & ? & _ & Hd & ? & _). simpl.
    split_and!; [done|rewrite Hd; apply union_subseteq_r|auto].
Qed.

Lemma rtc_step_inv h h' :
  rtc step h h' → heap_inv h →
  heap_inv h' ∧ dom (trackers h) ⊆ dom (trackers h')
  ∧ (copy_keeps_action → records_inv h → records_inv h').
Proof.
  induction 1 as [h|h h1 h2 Hstep _ IH]; intros Hinv; [by split_and!|].
  destruct (step_inv _ _ Hstep Hinv) as (I1 & D1 & R1).
  destruct (IH I1) as (I2 & D2 & R2).
  split_and!; [done|by etrans|auto].
Qed.

Lemma reachable_inv h : reachable h → heap_inv h.
Proof. intros Hr. by apply (rtc_step_inv _ _ Hr), heap_inv_empty. Qed.

Lemma reachable_records_inv h :
  copy_keeps_action → reachable h → records_inv h.
Proof.
  intros Hkeep Hr.
  by apply (rtc_step_inv _ _ Hr heap_inv_empty), records_inv_empty.
Qed.

(** ** The claims *)

Lemma one_at_a_time_after_panic a rs h e :
  foldl (λ st request,
           match st.2 with
           | Ok _ => AllActionsTracker_AddRequest a request st.1
           | Panic e => st
           end) (h, Panic e) rs = (h, Panic e).
Proof. induction rs as [|r rs IH]; simpl; [done|apply IH]. Qed.

Lemma AddRequests_one_at_a_time a rs h :
  AllActionsTracker_AddRequests a rs h = AddRequest_one_at_a_time a rs h.
Proof.
  unfold AllActionsTracker_AddRequests, AddRequest_one_at_a_time.
  revert h. induction rs as [|r rs IH]; intros h; simpl; [done|].
  unfold bind. destruct (AllActionsTracker_AddRequest a r h) as [h1 [[]|e]].
  - apply IH.
  - by rewrite one_at_a_time_after_panic.
Qed.

(** C7. AddRequests leaves the store, and ends, exactly as calling AddRequest
    on each record in turn does; and when the insertion of the k-th record
    panics, AddRequests panics the same way in the store the first k-1
    insertions built: nothing is rolled back, and the failed insertion itself
    changed nothing. *)
Theorem AddRequests_is_repeated_AddRequest :
  (∀ a rs h,
     AllActionsTracker_AddRequests a rs h = AddRequest_one_at_a_time a rs h)
  ∧ (∀ a rs1 r rs2 h h1 h2 e,
       AllActionsTracker_AddRequests a rs1 h = (h1, Ok tt) →
       AllActionsTracker_AddRequest a r h1 = (h2, Panic e) →
       h2 = h1
       ∧ AllActionsTracker_AddRequests a (rs1 ++ r :: rs2) h = (h1, Panic e)).
Proof.
  split; [apply AddRequests_one_at_a_time|].
  intros a rs1 r rs2 h h1 h2 e Hrs1 Hr.
  pose proof (AddRequest_panic_keeps_store _ _ _ _ _ Hr) as ->.
  split; [done|]. unfold AllActionsTracker_AddRequests in *.
  rewrite for_each_app, (bind_Ok _ _ _ _ _ Hrs1). simpl.
  by rewrite (bind_Panic _ _ _ _ _ Hr).
Qed.

(** C6. actionTracker.AddRequest panics with "coding error", leaving the
    store as it was, exactly when the request reports an action other than
    the tracker's own, and appends the request otherwise; and
    AllActionsTracker.AddRequest on a tracker of a reachable store returns
    normally for every request, so that panic is never raised through it. *)
Theorem AddRequest_aborts_iff_action_differs :
  (∀ h l c r, cells h !! l = Some c →
     ((actionTracker_AddRequest (Some l) r h).2 = Panic CodingError
      ↔ action c ≠ GetAction r)
     ∧ (action c ≠ GetAction r →
        actionTracker_AddRequest (Some l) r h = (h, Panic CodingError))
     ∧ (action c = GetAction r →
        actionTracker_AddRequest (Some l) r h
        = (mkHeap (trackers h) (maps h)
             (<[l := mkActionTracker (action c) (requests c ++ [r])]> (cells h)),
           Ok tt)))
  ∧ (∀ h a r, reachable h →
       (AllActionsTracker_AddRequest a r h).2 ≠ Panic CodingError
       ∧ (is_Some (trackers h !! a) →
          ∃ h', AllActionsTracker_AddRequest a r h = (h', Ok tt))).
Proof.
  split.
  - intros h l c r Hl. unfold actionTracker_AddRequest. unfold_ops. rewrite Hl.
    destruct (decide (action c ≠ GetAction r)) as [Hne|Heq]; simpl.
    + split_and!; [done|done|by intros ?].
    + apply dec_stable in Heq. split_and!; [|done|done].
      split; [done|]. by intros ?.
  - intros h a r Hr. pose proof (reachable_inv _ Hr) as Hinv.
    destruct (trackers h !! a) as [t|] eqn:Ha.
    + destruct (view_is_Some h a Hinv) as [v Hv]; [by eauto|].
      destruct (AddRequest_spec h a r v Hinv Hv) as (h' & Hrun & _).
      rewrite Hrun. split; [done|eauto].
    + rewrite (AddRequest_nil_receiver _ _ _ Ha). split; [done|].
      by intros [? ?].
Qed.

(** C10. actionTracker.DeepCopy returns normally exactly when the deep copy
    of every stored request has dynamic type T.  If some stored request's
    deep copy has another dynamic type, it panics on the type assertion.
    When deep copies always have type T the panic cannot happen: the call
    returns a new actionTracker with the same action holding, in order, the
    deep copies of the stored requests. *)
Theorem actionTracker_DeepCopy_type_assertion h l c :
  cells h !! l = Some c →
  ((∃ h' l', actionTracker_DeepCopy (Some l) h = (h', Ok l'))
   ↔ Forall (λ v, ∃ v', DeepCopyT v = IsT v') (requests c))
  ∧ (Exists (λ v, ∃ o, DeepCopyT v = NotT o) (requests c) →
     ∃ h', actionTracker_DeepCopy (Some l) h = (h', Panic TypeAssertion))
  ∧ ((∀ v, ∃ v', DeepCopyT v = IsT v') →
     ∃ h' l' copies,
       actionTracker_DeepCopy (Some l) h = (h', Ok l')
       ∧ cells h !! l' = None
       ∧ cells h' !! l' = Some (mkActionTracker (action c) copies)
       ∧ Forall2 (λ v v', DeepCopyT v = IsT v') (requests c) copies).
Proof.
  intros Hl. rewrite (actionTracker_DeepCopy_run _ _ _ Hl).
  split_and!.
  - rewrite <-copy_requests_Ok. split.
    + intros (h' & l' & Hrun).
      by destruct (copy_requests (requests c)).2 as [[]|].
    + intros ->. eauto.
  - intros Hex.
    destruct (copy_requests_outcome (requests c)) as [Hok| ->]; [|eauto].
    apply copy_requests_Ok in Hok. apply Exists_exists in Hex as (v & Hv & o & Ho).
    rewrite Forall_forall in Hok. destruct (Hok v Hv) as [v' Hv']. congruence.
  - intros Hty.
    assert (Hok : (copy_requests (requests c)).2 = Ok tt).
    { apply copy_requests_Ok, Forall_forall. auto. }
    rewrite Hok. eexists _, _, _. split_and!; [done| | |].
    + apply not_elem_of_dom, is_fresh.
    + cbn [cells]. apply lookup_insert_eq.
    + by apply copy_requests_copies.
Qed.

(** C8. In every store reachable through the public operations, the map of
    every tracker has, under each key, one actionTracker of its own (no two
    keys share one), whose action is the key and which holds at least one
    request, each reporting the key as its action.  That deep copies report
    the action of their original is the contract DeepCopy relies on. *)
Theorem reachable_tracker_invariant h a mref :
  copy_keeps_action → reachable h →
  trackers h !! a = Some (mkAllActionsTracker (Some mref)) →
  ∃ m, maps h !! mref = Some m
    ∧ (∀ k l, m !! k = Some l →
         ∃ c, cells h !! l = Some c ∧ action c = k ∧ requests c ≠ []
              ∧ Forall (λ r, GetAction r = k) (requests c))
    ∧ (∀ k l1 l2, m !! k = Some l1 → m !! k = Some l2 → l1 = l2)
    ∧ (∀ k1 k2 l, m !! k1 = Some l → m !! k2 = Some l → k1 = k2).
Proof.
  intros Hkeep Hr Ha. pose proof (reachable_inv _ Hr) as Hinv.
  pose proof (reachable_records_inv _ Hkeep Hr) as Hrec.
  destruct (inv_tracker_map _ Hinv _ _ Ha) as [m Hm].
  exists m. split_and!; [done| |congruence|].
  - intros k l Hk. destruct (inv_map_cell _ Hinv _ _ _ _ Hm Hk) as (c & Hc & ? & ?).
    exists c. split_and!; [done..|]. by eapply Hrec.
  - intros k1 k2 l H1 H2.
    by destruct (inv_cell_owner _ Hinv _ _ _ _ _ _ _ Hm H1 Hm H2).
Qed.

(** ** Runs of insertions *)

Lemma empty_tracker_view h a : empty_tracker h a → view h a = Some ∅.
Proof.
  unfold empty_tracker, view.
  destruct (trackers h !! a) as [[[mref|]]|]; simpl; [|done..].
  intros ->. simpl. unfold table_view. by rewrite omap_empty.
Qed.

Lemma empty_tracker_allocated h a : empty_tracker h a → is_Some (trackers h !! a).
Proof. unfold empty_tracker. destruct (trackers h !! a); [eauto|done]. Qed.

Lemma record_all_app v rs1 rs2 :
  record_all v (rs1 ++ rs2) = record_all (record_all v rs1) rs2.
Proof. apply foldl_app. Qed.

Lemma insert_all_spec h a bs v :
  heap_inv h → view h a = Some v →
  ∃ h', insert_all a bs h = (h', Ok tt) ∧ heap_inv h' ∧ rtc step h h'
    ∧ view h' a = Some (record_all v (concat bs))
    ∧ (∀ b, b ≠ a → view h' b = view h b)
    ∧ dom (trackers h') = dom (trackers h).
Proof.
  unfold insert_all.
  revert h v. induction bs as [|rs bs IH]; intros h v Hinv Hv; simpl.
  - exists h. by split_and!.
  - destruct (AddRequests_spec h a rs v Hinv Hv)
      as (h1 & Hrun & I1 & V1 & F1 & D1 & _).
    destruct (IH h1 _ I1 V1) as (h2 & Hrun2 & I2 & S2 & V2 & F2 & D2).
    exists h2. rewrite (bind_Ok _ _ _ _ _ Hrun).
    split_and!; [done|done| | | |congruence].
    + eapply rtc_l; [|done].
      replace h1 with (AllActionsTracker_AddRequests a rs h).1 by by rewrite Hrun.
      constructor. by eapply view_Some_allocated.
    + by rewrite V2, record_all_app.
    + intros b Hb. by rewrite F2, F1.
Qed.

Lemma reachable_insert_all h a bs :
  reachable h → empty_tracker h a →
  ∃ h', insert_all a bs h = (h', Ok tt) ∧ reachable h'
    ∧ view h' a = Some (record_all ∅ (concat bs)).
Proof.
  intros Hr He.
  destruct (insert_all_spec h a bs ∅ (reachable_inv _ Hr) (empty_tracker_view _ _ He))
    as (h' & Hrun & _ & Hs & Hv & _).
  exists h'. split_and!; [done| |done]. unfold reachable in *. by etrans.
Qed.

Lemma AddRequests_singleton a r h :
  AllActionsTracker_AddRequests a [r] h = AllActionsTracker_AddRequest a r h.
Proof.
  unfold AllActionsTracker_AddRequests. simpl. unfold bind.
  by destruct (AllActionsTracker_AddRequest a r h) as [h' [[]|e]].
Qed.

Lemma record_all_empty_seen bs k :
  (∃ r, r ∈ bs ∧ GetAction r = k) →
  record_all ∅ bs !! k = Some (filter (λ r, GetAction r = k) bs).
Proof.
  intros (r & Hin & Hk). rewrite record_all_empty_lookup.
  destruct (filter _ bs) eqn:Hf; [|done].
  assert (Hr : r ∈ filter (λ r, GetAction r = k) bs) by by apply list_elem_of_filter.
  rewrite Hf in Hr. by apply elem_of_nil in Hr.
Qed.

Lemma record_all_empty_unseen bs k :
  (∀ r, r ∈ bs → GetAction r ≠ k) → record_all ∅ bs !! k = None.
Proof.
  intros Hno. rewrite record_all_empty_lookup.
  destruct (filter _ bs) as [|r l] eqn:Hf; [done|].
  assert (Hr : r ∈ filter (λ r, GetAction r = k) bs) by (rewrite Hf; left).
  apply list_elem_of_filter in Hr as [? ?]. by destruct (Hno r).
Qed.

(** C1. For a tracker built by insertions and an action that no inserted
    record reports (a never-seen action among them), RequestsForAction does
    not return the empty sequence: the map index yields the nil
    actionTracker and Mutations dereferences it, which panics. *)
Theorem RequestsForAction_unseen_action_panics h a bs k :
  reachable h → empty_tracker h a →
  (∀ r, r ∈ concat bs → GetAction r ≠ k) →
  ∃ h', insert_all a bs h = (h', Ok tt)
    ∧ AllActionsTracker_RequestsForAction a k h' = (h', Panic NilDereference).
Proof.
  intros Hr He Hno.
  destruct (reachable_insert_all h a bs Hr He) as (h' & Hrun & _ & Hv).
  exists h'. split; [done|].
  by rewrite (RequestsForAction_view _ _ _ k Hv), record_all_empty_unseen.
Qed.

(** C2. After any run of AddRequest and AddRequests calls on an empty
    tracker, RequestsForAction returns, for an action that at least one
    inserted record reports, exactly the inserted records that report it, in
    the order they were inserted.  For an action that no inserted record
    reports, that subsequence is empty and the call does not return it: it
    panics. *)
Theorem RequestsForAction_insertion_order h a bs k :
  reachable h → empty_tracker h a →
  ∃ h', insert_all a bs h = (h', Ok tt)
    ∧ AllActionsTracker_RequestsForAction a k h'
      = (h', match filter (λ r, GetAction r = k) (concat bs) with
             | [] => Panic NilDereference
             | rs => Ok rs
             end).
Proof.
  intros Hr He.
  destruct (reachable_insert_all h a bs Hr He) as (h' & Hrun & _ & Hv).
  exists h'. split; [done|].
  rewrite (RequestsForAction_view _ _ _ k Hv), record_all_empty_lookup.
  by destruct (filter _ (concat bs)).
Qed.

(** ** ListActions *)

Lemma sets_List_Permutation s : sets_List s ≡ₚ elements s.
Proof. apply merge_sort_Permutation. Qed.

Lemma elem_of_sets_List s k : k ∈ sets_List s ↔ k ∈ s.
Proof. by rewrite sets_List_Permutation, elem_of_elements. Qed.

Lemma NoDup_sets_List s : NoDup (sets_List s).
Proof. rewrite sets_List_Permutation. apply NoDup_elements. Qed.

Lemma le_ne_ltb (x y : string) : String.le x y → x ≠ y → String.ltb x y = true.
Proof.
  unfold String.le, String.leb, String.ltb. intros Hle Hne.
  destruct (String.compare x y) eqn:Hc; [|done|done].
  by apply String.compare_eq_iff in Hc.
Qed.

Lemma StronglySorted_sets_List s :
  StronglySorted (λ x y, String.ltb x y = true) (sets_List s).
Proof.
  pose proof (NoDup_sets_List s) as Hnd.
  pose proof (StronglySorted_merge_sort String.le (elements s)) as Hs.
  fold (sets_List s) in Hs. induction Hs as [|x l Hs IH Hx]; [constructor|].
  apply NoDup_cons in Hnd as [Hx' Hnd]. constructor; [auto|].
  rewrite Forall_forall in Hx |- *. intros y Hy.
  apply le_ne_ltb; [by apply Hx|]. by intros ->.
Qed.

(** C4. ListActions returns, without changing the store, the actions under
    which the tracker holds at least one record: each once, in strictly
    increasing lexicographic order; calling it twice in a row gives the same
    sequence twice.  After a run of insertions into an empty tracker these
    are exactly the actions the inserted records report. *)
Theorem ListActions_sorted_actions_with_records :
  (∀ h a, reachable h → is_Some (trackers h !! a) →
     ∃ acts, AllActionsTracker_ListActions a h = (h, Ok acts)
       ∧ NoDup acts
       ∧ StronglySorted (λ x y, String.ltb x y = true) acts
       ∧ (∀ k, k ∈ acts ↔
               ∃ rs, AllActionsTracker_RequestsForAction a k h = (h, Ok rs)
                     ∧ rs ≠ [])
       ∧ bind (AllActionsTracker_ListActions a) (λ l1,
           bind (AllActionsTracker_ListActions a) (λ l2, ret (l1, l2))) h
         = (h, Ok (acts, acts)))
  ∧ (∀ h a bs, reachable h → empty_tracker h a →
     ∃ h' acts, insert_all a bs h = (h', Ok tt)
       ∧ AllActionsTracker_ListActions a h' = (h', Ok acts)
       ∧ ∀ k, k ∈ acts ↔ ∃ r, r ∈ concat bs ∧ GetAction r = k).
Proof.
  split.
  - intros h a Hr Ha. pose proof (reachable_inv _ Hr) as Hinv.
    destruct (view_is_Some h a Hinv Ha) as [v Hv].
    pose proof (ListActions_view h a v Hinv Hv) as Hlist.
    exists (sets_List (dom v)).
    split_and!; [done|apply NoDup_sets_List|apply StronglySorted_sets_List| |].
    + intros k. rewrite elem_of_sets_List, elem_of_dom.
      rewrite (RequestsForAction_view _ _ _ k Hv). split.
      * intros [rs Hk]. rewrite Hk. exists rs. split; [done|].
        by eapply view_nonempty.
      * intros (rs & Hk & _). destruct (v !! k); [eauto|done].
    + by rewrite (bind_Ok _ _ _ _ _ Hlist), (bind_Ok _ _ _ _ _ Hlist).
  - intros h a bs Hr He.
    destruct (reachable_insert_all h a bs Hr He) as (h' & Hrun & Hr' & Hv).
    exists h', (sets_List (dom (record_all ∅ (concat bs)))).
    split_and!; [done|by apply ListActions_view, Hv; apply reachable_inv|].
    intros k. rewrite elem_of_sets_List, elem_of_dom. split.
    + intros [rs Hk]. rewrite record_all_empty_lookup in Hk.
      destruct (filter _ (concat bs)) as [|r l] eqn:Hf; [done|].
      assert (Hin : r ∈ filter (λ r, GetAction r = k) (concat bs))
        by (rewrite Hf; left).
      apply list_elem_of_filter in Hin as [? ?]. eauto.
    + intros Hseen. rewrite record_all_empty_seen by done. eauto.
Qed.

(** ** AllRequests *)

Lemma concat_Permutation {A} (l1 l2 : list (list A)) :
  l1 ≡ₚ l2 → concat l1 ≡ₚ concat l2.
Proof.
  induction 1 as [|x l1 l2 _ IH|x y l|l1 l2 l3 _ IH1 _ IH2]; simpl.
  - done.
  - by rewrite IH.
  - by rewrite !app_assoc, (Permutation_app_comm y x).
  - by etrans.
Qed.

Lemma elements_dom_map_to_list {A} (v : gmap Action A) :
  elements (dom v) ≡ₚ (map_to_list v).*1.
Proof.
  apply NoDup_Permutation; [apply NoDup_elements|apply NoDup_fst_map_to_list|].
  intros k. rewrite elem_of_elements, elem_of_dom, list_elem_of_fmap. split.
  - intros [x Hx]. exists (k, x). split; [done|]. by apply elem_of_map_to_list.
  - intros ([k' x] & -> & Hx). apply elem_of_map_to_list in Hx. eauto.
Qed.

Lemma lookup_values_map_to_list (v : gmap Action (list T)) :
  (λ k, default [] (v !! k)) <$> (map_to_list v).*1 = (map_to_list v).*2.
Proof.
  rewrite <-list_fmap_compose. apply list_fmap_ext. intros i [k x] Hi. simpl.
  apply list_elem_of_lookup_2, elem_of_map_to_list in Hi. by rewrite Hi.
Qed.

(** Recording one more request adds it to the multiset of all requests. *)
Lemma all_records_insert (v : gmap Action (list T)) k r :
  concat (map_to_list (<[k := default [] (v !! k) ++ [r]]> v)).*2
  ≡ₚ concat (map_to_list v).*2 ++ [r].
Proof.
  destruct (v !! k) as [x|] eqn:Hk; simpl.
  - rewrite <-(insert_delete_eq v), map_to_list_insert
      by apply lookup_delete_eq.
    rewrite <-(map_to_list_delete v k x) by done. simpl.
    by rewrite <-!app_assoc, (Permutation_app_comm [r]).
  - rewrite map_to_list_insert by done. simpl. by rewrite Permutation_app_comm.
Qed.

Lemma all_records_record_all v rs :
  concat (map_to_list (record_all v rs)).*2 ≡ₚ concat (map_to_list v).*2 ++ rs.
Proof.
  revert v. induction rs as [|r rs IH]; intros v; simpl.
  - by rewrite app_nil_r.
  - unfold record_all in *. simpl. rewrite IH, all_records_insert.
    by rewrite <-app_assoc.
Qed.

(** AllRequests, by the order of the range: the sequences of the keys the
    range visits, concatenated in that order. *)
Lemma AllRequests_by_range rng h a v :
  heap_inv h → valid_range rng → view h a = Some v →
  dom (tracker_table h a) = dom v
  ∧ AllActionsTracker_AllRequests rng a h
    = (h, Ok (concat ((λ e, default [] (v !! e.1)) <$> rng (tracker_table h a)))).
Proof.
  intros Hinv Hrng.
  unfold view, tracker_table, AllActionsTracker_AllRequests. unfold_ops.
  destruct (trackers h !! a) as [[[mref|]]|]; simpl; [| |done].
  - destruct (maps h !! mref) as [m|] eqn:Hm; simpl; [|done]. intros [= <-].
    split; [by erewrite dom_table_view|].
    rewrite AllRequests_loop_spec.
    + simpl. do 3 f_equal. apply list_fmap_ext. intros i [k l] Hi. simpl.
      apply list_elem_of_lookup_2 in Hi. rewrite (Hrng m) in Hi.
      apply elem_of_map_to_list in Hi. by rewrite lookup_table_view, Hi.
    + intros k l Hkl. rewrite (Hrng m) in Hkl.
      apply elem_of_map_to_list in Hkl.
      destruct (inv_map_cell _ Hinv _ _ _ _ Hm Hkl) as (c & -> & _). eauto.
  - intros [= <-]. split; [done|].
    assert (Hnil : rng ∅ = []).
    { apply Permutation_nil_r. by rewrite (Hrng ∅), map_to_list_empty. }
    by rewrite Hnil.
Qed.

Lemma valid_range_map_to_list : valid_range map_to_list.
Proof. by intros m. Qed.

Lemma valid_range_reverse : valid_range (λ m, reverse (map_to_list m)).
Proof. intros m. apply reverse_Permutation. Qed.

(** C3. In every reachable store, AllRequests returns a sequence that is, as
    a multiset, the union over the actions ListActions lists of what
    RequestsForAction returns for them.  After a run of insertions into an
    empty tracker it is a permutation of the inserted records, so its length
    is the number of insertions.  The order across actions is not fixed: for
    two records of different actions, inserted in this order, one range
    order returns them in insertion order and another in the opposite
    order. *)
Theorem AllRequests_union_of_actions :
  (∀ h a rng, reachable h → is_Some (trackers h !! a) → valid_range rng →
     ∃ out acts per_action,
       AllActionsTracker_AllRequests rng a h = (h, Ok out)
       ∧ AllActionsTracker_ListActions a h = (h, Ok acts)
       ∧ Forall2 (λ k rs, AllActionsTracker_RequestsForAction a k h = (h, Ok rs))
           acts per_action
       ∧ out ≡ₚ concat per_action)
  ∧ (∀ h a bs rng, reachable h → empty_tracker h a → valid_range rng →
     ∃ h' out, insert_all a bs h = (h', Ok tt)
       ∧ AllActionsTracker_AllRequests rng a h' = (h', Ok out)
       ∧ out ≡ₚ concat bs ∧ length out = length (concat bs))
  ∧ (∀ h a r1 r2, reachable h → empty_tracker h a →
     GetAction r1 ≠ GetAction r2 →
     ∃ h' rng1 rng2, insert_all a [[r1]; [r2]] h = (h', Ok tt)
       ∧ valid_range rng1 ∧ valid_range rng2
       ∧ AllActionsTracker_AllRequests rng1 a h' = (h', Ok [r1; r2])
       ∧ AllActionsTracker_AllRequests rng2 a h' = (h', Ok [r2; r1])).
Proof.
  split_and!.
  - intros h a rng Hr Ha Hrng. pose proof (reachable_inv _ Hr) as Hinv.
    destruct (view_is_Some h a Hinv Ha) as [v Hv].
    destruct (AllRequests_view rng h a v Hinv Hrng Hv) as (entries & Hent & Hall).
    exists (concat entries.*2), (sets_List (dom v)),
      ((λ k, default [] (v !! k)) <$> sets_List (dom v)).
    split_and!; [done|by apply ListActions_view| |].
    + apply Forall2_fmap_r, Forall_Forall2_diag, Forall_forall. intros k Hk.
      apply elem_of_sets_List, elem_of_dom in Hk as [rs Hk].
      simpl. by rewrite (RequestsForAction_view _ _ _ k Hv), Hk.
    + rewrite sets_List_Permutation, elements_dom_map_to_list.
      rewrite lookup_values_map_to_list. apply concat_Permutation.
      by rewrite Hent.
  - intros h a bs rng Hr He Hrng.
    destruct (reachable_insert_all h a bs Hr He) as (h' & Hrun & Hr' & Hv).
    destruct (AllRequests_view rng h' a _ (reachable_inv _ Hr') Hrng Hv)
      as (entries & Hent & Hall).
    assert (Hperm : concat entries.*2 ≡ₚ concat bs).
    { rewrite (concat_Permutation entries.*2 _ (fmap_Permutation snd _ _ Hent)).
      rewrite all_records_record_all. by rewrite map_to_list_empty. }
    exists h', (concat entries.*2). split_and!; [done..|]. by rewrite Hperm.
  - intros h a r1 r2 Hr He Hne.
    destruct (reachable_insert_all h a [[r1]; [r2]] Hr He) as (h' & Hrun & Hr' & Hv).
    pose proof (reachable_inv _ Hr') as Hinv.
    simpl in Hv. unfold record_all in Hv. simpl in Hv.
    rewrite lookup_empty, lookup_insert_ne, lookup_empty in Hv by done.
    simpl in Hv. set (v := <[GetAction r2 := [r2]]> _) in Hv.
    destruct (AllRequests_by_range map_to_list h' a v Hinv
                valid_range_map_to_list Hv) as [Hdom H1].
    destruct (AllRequests_by_range (λ m, reverse (map_to_list m)) h' a v Hinv
                valid_range_reverse Hv) as [_ H2].
    assert (Hkeys : (map_to_list (tracker_table h' a)).*1
                    ≡ₚ [GetAction r2; GetAction r1]).
    { rewrite <-elements_dom_map_to_list, Hdom, elements_dom_map_to_list.
      unfold v. rewrite map_to_list_insert
        by (rewrite lookup_insert_ne by done; apply lookup_empty).
      rewrite map_to_list_insert by apply lookup_empty.
      by rewrite map_to_list_empty. }
    assert (H1v : v !! GetAction r1 = Some [r1]).
    { unfold v. by rewrite lookup_insert_ne, lookup_insert_eq. }
    assert (H2v : v !! GetAction r2 = Some [r2]).
    { unfold v. by rewrite lookup_insert_eq. }
    symmetry in Hkeys. apply Permutation_length_2_inv in Hkeys.
    destruct (map_to_list (tracker_table h' a)) as [|[ka la] [|[kb lb] [|? ?]]];
      destruct Hkeys as [Hk|Hk]; simplify_eq/=.
    + exists h', (λ m, reverse (map_to_list m)), map_to_list.
      split_and!; [done|apply valid_range_reverse|apply valid_range_map_to_list|..].
      * rewrite H2. by rewrite H1v, H2v.
      * rewrite H1. by rewrite H1v, H2v.
    + exists h', map_to_list, (λ m, reverse (map_to_list m)).
      split_and!; [done|apply valid_range_map_to_list|apply valid_range_reverse|..].
      * rewrite H1. by rewrite H1v, H2v.
      * rewrite H2. by rewrite H1v, H2v.
Qed.

(** ** DeepCopy: equal content, then independence *)

Lemma same_results_of_view h1 a1 h2 a2 v :
  heap_inv h1 → heap_inv h2 → view h1 a1 = Some v → view h2 a2 = Some v →
  same_results h1 a1 h2 a2.
Proof.
  intros I1 I2 V1 V2. split_and!.
  - by rewrite (ListActions_view _ _ _ I1 V1), (ListActions_view _ _ _ I2 V2).
  - intros k.
    by rewrite (RequestsForAction_view _ _ _ k V1), (RequestsForAction_view _ _ _ k V2).
  - intros rng1 rng2 R1 R2.
    destruct (AllRequests_view rng1 h1 a1 v I1 R1 V1) as (e1 & P1 & ->).
    destruct (AllRequests_view rng2 h2 a2 v I2 R2 V2) as (e2 & P2 & ->).
    eexists _, _. split_and!; [done..|].
    apply concat_Permutation. by rewrite P1, P2.
Qed.

Lemma copied_results_of_view h a a' v :
  heap_inv h → view h a = Some v →
  view h a' = Some ((λ rs, (copy_requests rs).1) <$> v) →
  (∀ k rs, v !! k = Some rs → (copy_requests rs).2 = Ok tt) →
  copied_results h a a'.
Proof.
  intros Hinv Hv Hv' Hok. split_and!.
  - rewrite (ListActions_view _ _ _ Hinv Hv), (ListActions_view _ _ _ Hinv Hv').
    by rewrite dom_fmap_L.
  - intros k.
    rewrite (RequestsForAction_view _ _ _ k Hv), (RequestsForAction_view _ _ _ k Hv').
    rewrite lookup_fmap. destruct (v !! k) as [rs|] eqn:Hk; simpl; [|done].
    eexists. split; [done|]. apply copy_requests_copies. by eapply Hok.
  - intros rng1 rng2 R1 R2.
    destruct (AllRequests_view rng1 h a v Hinv R1 Hv) as (e1 & P1 & ->).
    destruct (AllRequests_view rng2 h a' _ Hinv R2 Hv') as (e2 & P2 & ->).
    exists (concat e1.*2), (concat e2.*2),
      (concat ((λ rs, (copy_requests rs).1) <$> e1.*2)).
    split_and!; [done..| |].
    + assert (Hall : Forall (λ rs, (copy_requests rs).2 = Ok tt) e1.*2).
      { apply Forall_forall. intros rs ([k rs'] & -> & Hin)%list_elem_of_fmap.
        rewrite P1 in Hin. apply elem_of_map_to_list in Hin. by eapply Hok. }
      induction Hall as [|rs l Hrs _ IH]; simpl; [constructor|].
      apply Forall2_app; [by apply copy_requests_copies|done].
    + apply concat_Permutation. rewrite P2, map_to_list_fmap, P1.
      rewrite <-!list_fmap_compose. done.
Qed.

Lemma insertion_leaves_others h a b rs :
  heap_inv h → is_Some (trackers h !! a) → is_Some (trackers h !! b) → a ≠ b →
  ∃ h2, AllActionsTracker_AddRequests a rs h = (h2, Ok tt)
    ∧ same_results h b h2 b.
Proof.
  intros Hinv Ha Hb Hne.
  destruct (view_is_Some h a Hinv Ha) as [v Hv].
  destruct (view_is_Some h b Hinv Hb) as [w Hw].
  destruct (AddRequests_spec h a rs v Hinv Hv) as (h2 & Hrun & I2 & _ & F2 & _).
  exists h2. split; [done|].
  apply (same_results_of_view _ _ _ _ w); [done..|]. by rewrite F2.
Qed.

(** C5. When deep copies of records have type T, DeepCopy returns a new
    tracker and leaves the answers of the source as they were; the copy
    answers every query as the source does, record by record the deep copy
    of the source's.  From then on, in whatever store the program reaches,
    an insertion into the source (by AddRequest or AddRequests) returns
    normally and leaves every answer of the copy as it was, and an insertion
    into the copy leaves every answer of the source as it was. *)
Theorem DeepCopy_equal_then_independent rng h a :
  reachable h → is_Some (trackers h !! a) → valid_range rng →
  (∀ r, ∃ r', DeepCopyT r = IsT r') →
  ∃ h' a', AllActionsTracker_DeepCopy rng a h = (h', Ok a')
    ∧ a' ≠ a ∧ trackers h !! a' = None
    ∧ same_results h a h' a
    ∧ copied_results h' a a'
    ∧ ∀ h1, rtc step h' h1 →
        (∀ r, ∃ h2, AllActionsTracker_AddRequest a r h1 = (h2, Ok tt)
                    ∧ same_results h1 a' h2 a')
        ∧ (∀ rs, ∃ h2, AllActionsTracker_AddRequests a rs h1 = (h2, Ok tt)
                       ∧ same_results h1 a' h2 a')
        ∧ (∀ r, ∃ h2, AllActionsTracker_AddRequest a' r h1 = (h2, Ok tt)
                      ∧ same_results h1 a h2 a)
        ∧ (∀ rs, ∃ h2, AllActionsTracker_AddRequests a' rs h1 = (h2, Ok tt)
                       ∧ same_results h1 a h2 a).
Proof.
  intros Hr Ha Hrng Hty. pose proof (reachable_inv _ Hr) as Hinv.
  destruct (view_is_Some h a Hinv Ha) as [v Hv].
  destruct (DeepCopy_spec rng h a v Hinv Hrng Hv)
    as (h' & res & Hrun & I' & F' & D' & _ & _ & Hiff & V').
  set (a' := fresh (dom (trackers h))) in *.
  assert (Hok : ∀ k rs, v !! k = Some rs → (copy_requests rs).2 = Ok tt).
  { intros k rs _. apply copy_requests_Ok, Forall_forall. auto. }
  assert (Hres : res = Ok a') by by apply Hiff.
  subst res. specialize (V' eq_refl).
  assert (Ha' : trackers h !! a' = None) by apply not_elem_of_dom, is_fresh.
  assert (Hne : a' ≠ a) by (intros ->; destruct Ha; congruence).
  assert (Hva : view h' a = Some v) by by rewrite F'.
  exists h', a'. split_and!; [done..| | |].
  - by apply (same_results_of_view _ _ _ _ v).
  - by apply (copied_results_of_view _ _ _ v).
  - intros h1 Hs. destruct (rtc_step_inv _ _ Hs I') as (I1 & D1 & _).
    assert (Ha1 : is_Some (trackers h1 !! a)).
    { apply elem_of_dom, D1. rewrite D'. apply elem_of_union_r. by apply elem_of_dom. }
    assert (Ha'1 : is_Some (trackers h1 !! a')).
    { apply elem_of_dom, D1. rewrite D'. apply elem_of_union_l. by apply elem_of_singleton. }
    split_and!.
    + intros r. rewrite <-AddRequests_singleton.
      by apply insertion_leaves_others.
    + intros rs. by apply insertion_leaves_others.
    + intros r. rewrite <-AddRequests_singleton.
      by apply insertion_leaves_others.
    + intros rs. by apply insertion_leaves_others.
Qed.

(** ** The zero value *)

Lemma sets_List_empty : sets_List ∅ = [].
Proof. unfold sets_List. by rewrite elements_empty. Qed.

Lemma empty_view_queries rng h a :
  heap_inv h → valid_range rng → view h a = Some ∅ →
  AllActionsTracker_ListActions a h = (h, Ok [])
  ∧ AllActionsTracker_AllRequests rng a h = (h, Ok []).
Proof.
  intros Hinv Hrng Hv. split.
  - by rewrite (ListActions_view _ _ _ Hinv Hv), dom_empty_L, sets_List_empty.
  - destruct (AllRequests_view rng h a ∅ Hinv Hrng Hv) as (e & He & ->).
    rewrite map_to_list_empty in He. by apply Permutation_nil_r in He as ->.
Qed.

(** C9. On a zero-value tracker, whose map is nil, AddRequest, AddRequests,
    ListActions, AllRequests and DeepCopy return normally, as they do on an
    empty tracker from the constructor: ListActions and AllRequests return
    the empty sequence and DeepCopy an empty tracker; AddRequest allocates
    the map and records the request; and after the same run of insertions
    the two trackers answer every query alike.  One public operation does
    not return on it: RequestsForAction panics for every action, as it does
    on the empty tracker from the constructor. *)
Theorem zero_value_tracker_usable h :
  reachable h →
  ∃ hz z hn n,
    zero_AllActionsTracker h = (hz, Ok z)
    ∧ NewAllActionsTracker h = (hn, Ok n)
    ∧ trackers hz !! z = Some (mkAllActionsTracker None)
    ∧ AllActionsTracker_ListActions z hz = (hz, Ok [])
    ∧ AllActionsTracker_ListActions n hn = (hn, Ok [])
    ∧ (∀ rng, valid_range rng →
         AllActionsTracker_AllRequests rng z hz = (hz, Ok [])
         ∧ AllActionsTracker_AllRequests rng n hn = (hn, Ok []))
    ∧ (∀ rng, valid_range rng →
         ∃ hz' cz hn' cn,
           AllActionsTracker_DeepCopy rng z hz = (hz', Ok cz)
           ∧ AllActionsTracker_DeepCopy rng n hn = (hn', Ok cn)
           ∧ cz ≠ z ∧ cn ≠ n
           ∧ AllActionsTracker_ListActions cz hz' = (hz', Ok [])
           ∧ AllActionsTracker_ListActions cn hn' = (hn', Ok [])
           ∧ AllActionsTracker_AllRequests rng cz hz' = (hz', Ok [])
           ∧ AllActionsTracker_AllRequests rng cn hn' = (hn', Ok []))
    ∧ (∀ r, ∃ hz' mref,
         AllActionsTracker_AddRequest z r hz = (hz', Ok tt)
         ∧ trackers hz' !! z = Some (mkAllActionsTracker (Some mref))
         ∧ is_Some (maps hz' !! mref)
         ∧ AllActionsTracker_RequestsForAction z (GetAction r) hz' = (hz', Ok [r]))
    ∧ (∀ bs, ∃ hz' hn',
         insert_all z bs hz = (hz', Ok tt)
         ∧ insert_all n bs hn = (hn', Ok tt)
         ∧ same_results hz' z hn' n)
    ∧ (∀ k, AllActionsTracker_RequestsForAction z k hz = (hz, Panic NilDereference)
            ∧ AllActionsTracker_RequestsForAction n k hn = (hn, Panic NilDereference)).
Proof.
  intros Hr. pose proof (reachable_inv _ Hr) as Hinv.
  destruct (zero_AllActionsTracker_spec h Hinv)
    as (hz & z & Hz & Iz & Fz & Vz & Tz & _).
  destruct (NewAllActionsTracker_spec h Hinv)
    as (hn & n & Hn & In & Fn & Vn & Tn & _).
  exists hz, z, hn, n.
  split_and!; [done|done|done|
               by apply (empty_view_queries map_to_list hz z Iz valid_range_map_to_list)|
               by apply (empty_view_queries map_to_list hn n In valid_range_map_to_list)|..].
  - intros rng Hrng. split; by eapply empty_view_queries.
  - intros rng Hrng.
    destruct (DeepCopy_spec rng hz z ∅ Iz Hrng Vz)
      as (hz' & rz & Hrz & Iz' & _ & _ & _ & _ & Hiffz & Vz').
    destruct (DeepCopy_spec rng hn n ∅ In Hrng Vn)
      as (hn' & rn & Hrn & In' & _ & _ & _ & _ & Hiffn & Vn').
    assert (rz = Ok (fresh (dom (trackers hz)))) as ->.
    { apply Hiffz. intros k rs. by rewrite lookup_empty. }
    assert (rn = Ok (fresh (dom (trackers hn)))) as ->.
    { apply Hiffn. intros k rs. by rewrite lookup_empty. }
    specialize (Vz' eq_refl). specialize (Vn' eq_refl).
    rewrite fmap_empty in Vz', Vn'.
    destruct (empty_view_queries rng _ _ Iz' Hrng Vz') as [? ?].
    destruct (empty_view_queries rng _ _ In' Hrng Vn') as [? ?].
    eexists _, _, _, _. split_and!; [done|done| | |done..].
    + intros Heq. pose proof (is_fresh (dom (trackers hz))) as Hf.
      rewrite Heq in Hf. apply Hf, elem_of_dom. eauto.
    + intros Heq. pose proof (is_fresh (dom (trackers hn))) as Hf.
      rewrite Heq in Hf. apply Hf, elem_of_dom. eauto.
  - intros r.
    destruct (AddRequest_spec hz z r ∅ Iz Vz) as (hz' & Hrun & _ & Vz' & _).
    pose proof Hrun as Hx. rewrite (AddRequest_nil_map _ _ _ Tz) in Hx.
    injection Hx as Hx.
    exists hz', (fresh (dom (maps hz))). split_and!; [done| | |].
    + rewrite <-Hx. cbn [trackers]. by rewrite lookup_insert_eq.
    + rewrite <-Hx. cbn [maps]. rewrite lookup_insert_eq. eauto.
    + rewrite (RequestsForAction_view _ _ _ (GetAction r) Vz').
      by rewrite lookup_insert_eq, lookup_empty.
  - intros bs.
    destruct (insert_all_spec hz z bs ∅ Iz Vz) as (hz' & Hrz & Iz' & _ & Vz' & _).
    destruct (insert_all_spec hn n bs ∅ In Vn) as (hn' & Hrn & In' & _ & Vn' & _).
    exists hz', hn'. split_and!; [done..|].
    by eapply same_results_of_view.
  - intros k. by rewrite (RequestsForAction_view _ _ _ k Vz),
      (RequestsForAction_view _ _ _ k Vn), lookup_empty.
Qed.

(** * Further properties of the operations *)

(** ** One insertion, seen through each query *)

(** X1. On a tracker of a reachable store AddRequest returns normally;
    afterwards RequestsForAction for the request's action returns what it
    returned before (nothing, where it panicked) followed by the request, and
    for every other action it answers, or panics, as before. *)
Theorem AddRequest_then_RequestsForAction h a r :
  reachable h → is_Some (trackers h !! a) →
  ∃ h', AllActionsTracker_AddRequest a r h = (h', Ok tt)
    ∧ AllActionsTracker_RequestsForAction a (GetAction r) h'
      = (h', Ok (match (AllActionsTracker_RequestsForAction a (GetAction r) h).2 with
                 | Ok rs => rs ++ [r]
                 | Panic _ => [r]
                 end))
    ∧ ∀ k, k ≠ GetAction r →
        (AllActionsTracker_RequestsForAction a k h').2
        = (AllActionsTracker_RequestsForAction a k h).2.
Proof.
  intros Hr Ha. pose proof (reachable_inv _ Hr) as Hinv.
  destruct (view_is_Some h a Hinv Ha) as [v Hv].
  destruct (AddRequest_spec h a r v Hinv Hv) as (h' & Hrun & _ & Hv' & _).
  exists h'. split_and!; [done| |].
  - rewrite (RequestsForAction_view _ _ _ _ Hv'), (RequestsForAction_view _ _ _ _ Hv).
    rewrite lookup_insert_eq. by destruct (v !! GetAction r).
  - intros k Hk.
    rewrite (RequestsForAction_view _ _ _ _ Hv'), (RequestsForAction_view _ _ _ _ Hv).
    by rewrite lookup_insert_ne.
Qed.

(** X2. After AddRequest, ListActions lists the actions it listed before and
    the action of the request: no action is ever dropped. *)
Theorem AddRequest_then_ListActions h a r :
  reachable h → is_Some (trackers h !! a) →
  ∃ h' acts acts',
    AllActionsTracker_AddRequest a r h = (h', Ok tt)
    ∧ AllActionsTracker_ListActions a h = (h, Ok acts)
    ∧ AllActionsTracker_ListActions a h' = (h', Ok acts')
    ∧ ∀ k, k ∈ acts' ↔ k ∈ acts ∨ k = GetAction r.
Proof.
  intros Hr Ha. pose proof (reachable_inv _ Hr) as Hinv.
  destruct (view_is_Some h a Hinv Ha) as [v Hv].
  destruct (AddRequest_spec h a r v Hinv Hv) as (h' & Hrun & Hinv' & Hv' & _).
  eexists h', _, _.
  split_and!; [done|by apply ListActions_view|by apply ListActions_view|].
  intros k. rewrite !elem_of_sets_List, dom_insert_L, elem_of_union, elem_of_singleton.
  tauto.
Qed.

(** X3. After AddRequest, AllRequests returns one record more: as a
    multiset, what it returned before and the request, whatever order the
    two ranges over the map take. *)
Theorem AddRequest_then_AllRequests h a r rng1 rng2 :
  reachable h → is_Some (trackers h !! a) →
  valid_range rng1 → valid_range rng2 →
  ∃ h' out out',
    AllActionsTracker_AddRequest a r h = (h', Ok tt)
    ∧ AllActionsTracker_AllRequests rng1 a h = (h, Ok out)
    ∧ AllActionsTracker_AllRequests rng2 a h' = (h', Ok out')
    ∧ out' ≡ₚ out ++ [r] ∧ length out' = S (length out).
Proof.
  intros Hr Ha R1 R2. pose proof (reachable_inv _ Hr) as Hinv.
  destruct (view_is_Some h a Hinv Ha) as [v Hv].
  destruct (AddRequest_spec h a r v Hinv Hv) as (h' & Hrun & Hinv' & Hv' & _).
  destruct (AllRequests_view rng1 h a v Hinv R1 Hv) as (e1 & P1 & H1).
  destruct (AllRequests_view rng2 h' a _ Hinv' R2 Hv') as (e2 & P2 & H2).
  assert (Hperm : concat e2.*2 ≡ₚ concat e1.*2 ++ [r]).
  { rewrite (concat_Permutation e2.*2 _ (fmap_Permutation snd _ _ P2)).
    rewrite all_records_insert. apply Permutation_app_tail, concat_Permutation.
    by rewrite P1. }
  exists h', (concat e1.*2), (concat e2.*2). split_and!; [done..|].
  rewrite Hperm, length_app. simpl. lia.
Qed.

(** X4. AllRequests returns the records action by action: its result is the
    concatenation of what RequestsForAction returns for the actions of
    ListActions, taken each once in the order the range visits them, so the
    records of one action stay together and in insertion order. *)
Theorem AllRequests_blocks_by_action rng h a :
  reachable h → is_Some (trackers h !! a) → valid_range rng →
  ∃ acts order blocks,
    AllActionsTracker_ListActions a h = (h, Ok acts)
    ∧ order ≡ₚ acts
    ∧ Forall2 (λ k rs, AllActionsTracker_RequestsForAction a k h = (h, Ok rs))
        order blocks
    ∧ AllActionsTracker_AllRequests rng a h = (h, Ok (concat blocks)).
Proof.
  intros Hr Ha Hrng. pose proof (reachable_inv _ Hr) as Hinv.
  destruct (view_is_Some h a Hinv Ha) as [v Hv].
  destruct (AllRequests_by_range rng h a v Hinv Hrng Hv) as [Hdom Hall].
  set (m := tracker_table h a) in *.
  assert (Hord : (rng m).*1 ≡ₚ sets_List (dom v)).
  { rewrite (Hrng m), <-elements_dom_map_to_list, Hdom.
    by rewrite sets_List_Permutation. }
  exists (sets_List (dom v)), (rng m).*1,
    ((λ k, default [] (v !! k)) <$> (rng m).*1).
  split_and!; [by apply ListActions_view|done| |].
  - apply Forall2_fmap_r, Forall_Forall2_diag, Forall_forall. intros k Hk.
    rewrite Hord in Hk. apply elem_of_sets_List, elem_of_dom in Hk as [rs Hk].
    simpl. by rewrite (RequestsForAction_view _ _ _ k Hv), Hk.
  - rewrite Hall. by rewrite <-list_fmap_compose.
Qed.

(** X5. The three queries are read-only: on every store, well-formed or not,
    and whether they return or panic, ListActions, RequestsForAction and
    AllRequests leave the store exactly as it was. *)
Theorem queries_keep_store h a :
  (AllActionsTracker_ListActions a h).1 = h
  ∧ (∀ k, (AllActionsTracker_RequestsForAction a k h).1 = h)
  ∧ (∀ rng, (AllActionsTracker_AllRequests rng a h).1 = h).
Proof.
  split_and!.
  - apply ListActions_keeps_store.
  - intros k. apply RequestsForAction_keeps_store.
  - intros rng. apply AllRequests_keeps_store.
Qed.

(** ** What insertion keeps *)

Lemma AddRequest_keeps_map h a r mref m :
  trackers h !! a = Some (mkAllActionsTracker (Some mref)) →
  maps h !! mref = Some m →
  trackers (AllActionsTracker_AddRequest a r h).1 !! a
  = Some (mkAllActionsTracker (Some mref))
  ∧ ∃ m', maps (AllActionsTracker_AddRequest a r h).1 !! mref = Some m'
      ∧ m ⊆ m' ∧ ∀ k, k ≠ GetAction r → m' !! k = m !! k.
Proof.
  intros Ha Hm. destruct (m !! GetAction r) as [l|] eqn:Hk.
  - rewrite (AddRequest_old_key _ _ _ _ _ _ Ha Hm Hk).
    destruct (cells h !! l) as [c|]; [case_decide|]; simpl; eauto.
  - rewrite (AddRequest_new_key _ _ _ _ _ Ha Hm Hk). simpl. split; [done|].
    eexists. split; [apply lookup_insert_eq|].
    split; [by apply insert_subseteq|]. intros k ?. by rewrite lookup_insert_ne.
Qed.

(** X6. Once a tracker has its map, insertion never replaces it, and never
    replaces or removes an entry: on every store, after AddRequests (however
    it ends) the tracker holds the same map object, every key points to the
    actionTracker it pointed to, and a key that none of the requests reports
    is as it was. *)
Theorem AddRequests_keeps_map_and_entries a rs : ∀ h mref m,
  trackers h !! a = Some (mkAllActionsTracker (Some mref)) →
  maps h !! mref = Some m →
  trackers (AllActionsTracker_AddRequests a rs h).1 !! a
  = Some (mkAllActionsTracker (Some mref))
  ∧ ∃ m', maps (AllActionsTracker_AddRequests a rs h).1 !! mref = Some m'
      ∧ m ⊆ m'
      ∧ ∀ k, (∀ r, r ∈ rs → GetAction r ≠ k) → m' !! k = m !! k.
Proof.
  unfold AllActionsTracker_AddRequests.
  induction rs as [|r rs IH]; intros h mref m Ha Hm; simpl.
  { split; [done|]. by exists m. }
  destruct (AddRequest_keeps_map h a r mref m Ha Hm) as (Ha1 & m1 & Hm1 & Hsub1 & Hk1).
  unfold bind. destruct (AllActionsTracker_AddRequest a r h) as [h1 [[]|e]];
    simpl in *.
  - destruct (IH h1 mref m1 Ha1 Hm1) as (Ha2 & m2 & Hm2 & Hsub2 & Hk2).
    split; [done|]. exists m2. split_and!; [done|by etrans|].
    intros k Hno. rewrite Hk2, Hk1; [done| |].
    + intros ->. by eapply Hno; [left|].
    + intros r' ?. apply Hno. by right.
  - split; [done|]. exists m1. split_and!; [done..|].
    intros k Hno. apply Hk1. intros ->. by eapply Hno; [left|].
Qed.

(** X7. In a reachable store two trackers share nothing: their map objects
    are different, and no actionTracker is an entry of both. *)
Theorem reachable_trackers_share_nothing h a b ma mb :
  reachable h → a ≠ b →
  trackers h !! a = Some (mkAllActionsTracker (Some ma)) →
  trackers h !! b = Some (mkAllActionsTracker (Some mb)) →
  ma ≠ mb
  ∧ ∀ ta tb ka kb l,
      maps h !! ma = Some ta → maps h !! mb = Some tb →
      ta !! ka = Some l → tb !! kb ≠ Some l.
Proof.
  intros Hr Hne Ha Hb. pose proof (reachable_inv _ Hr) as Hinv.
  assert (Hm : ma ≠ mb).
  { intros ->. by destruct (Hne (inv_map_owner _ Hinv _ _ _ Ha Hb)). }
  split; [done|]. intros ta tb ka kb l Hta Htb Hka Hkb.
  by destruct (inv_cell_owner _ Hinv _ _ _ _ _ _ _ Hta Hka Htb Hkb).
Qed.

(** X8. In a reachable store, inserting into one tracker changes no answer of
    any other: AddRequests on a tracker returns normally and every other
    tracker answers ListActions, RequestsForAction and AllRequests as
    before. *)
Theorem insertion_leaves_other_trackers h a b rs :
  reachable h → is_Some (trackers h !! a) → is_Some (trackers h !! b) →
  a ≠ b →
  ∃ h', AllActionsTracker_AddRequests a rs h = (h', Ok tt)
    ∧ same_results h b h' b.
Proof.
  intros Hr Ha Hb Hne. apply insertion_leaves_others; [|done..].
  by apply reachable_inv.
Qed.

(** X9. Insertions of requests of different actions commute: AddRequests
    with the two requests in either order leaves the tracker answering every
    query alike.  For two different requests of one action the order shows:
    RequestsForAction for that action differs. *)
Theorem insertions_of_different_actions_commute h a r1 r2 :
  reachable h → is_Some (trackers h !! a) →
  ∃ h12 h21,
    AllActionsTracker_AddRequests a [r1; r2] h = (h12, Ok tt)
    ∧ AllActionsTracker_AddRequests a [r2; r1] h = (h21, Ok tt)
    ∧ (GetAction r1 ≠ GetAction r2 → same_results h12 a h21 a)
    ∧ (GetAction r1 = GetAction r2 → r1 ≠ r2 →
       (AllActionsTracker_RequestsForAction a (GetAction r1) h12).2
       ≠ (AllActionsTracker_RequestsForAction a (GetAction r1) h21).2).
Proof.
  intros Hr Ha. pose proof (reachable_inv _ Hr) as Hinv.
  destruct (view_is_Some h a Hinv Ha) as [v Hv].
  destruct (AddRequests_spec h a [r1; r2] v Hinv Hv) as (h12 & R12 & I12 & V12 & _).
  destruct (AddRequests_spec h a [r2; r1] v Hinv Hv) as (h21 & R21 & I21 & V21 & _).
  exists h12, h21. split_and!; [done..| |].
  - intros Hne. apply (same_results_of_view _ _ _ _ _ I12 I21 V12).
    rewrite V21. f_equal. unfold record_all. simpl.
    rewrite !lookup_insert_ne by done. by apply insert_insert_ne.
  - intros Heq Hr12.
    rewrite (RequestsForAction_view _ _ _ _ V12), (RequestsForAction_view _ _ _ _ V21).
    unfold record_all. simpl. rewrite <-Heq, !lookup_insert_eq. simpl.
    rewrite <-!app_assoc. simpl. intros [= Hl]. apply app_inv_head in Hl.
    by injection Hl.
Qed.

(** X10. AddRequests over a concatenation is AddRequests on the first part
    followed, unless that panicked, by AddRequests on the second part in the
    store the first left; with no request at all it does nothing, on any
    store and any receiver. *)
Theorem AddRequests_app_sequence a rs1 rs2 h :
  AllActionsTracker_AddRequests a (rs1 ++ rs2) h
  = match AllActionsTracker_AddRequests a rs1 h with
    | (h1, Ok _) => AllActionsTracker_AddRequests a rs2 h1
    | (h1, Panic e) => (h1, Panic e)
    end
  ∧ AllActionsTracker_AddRequests a [] h = (h, Ok tt).
Proof.
  split; [|done]. unfold AllActionsTracker_AddRequests. by rewrite for_each_app.
Qed.

(** ** Copying *)

Lemma copy_requests_prefix vs :
  ∃ pre, pre `prefix_of` vs ∧ Forall2 copy_of pre (copy_requests vs).1
    ∧ ((copy_requests vs).2 = Ok tt → pre = vs).
Proof.
  induction vs as [|v vs (pre & Hpre & Hcopy & Hall)]; simpl.
  { exists []. by split_and!; [|constructor|]. }
  destruct (DeepCopyT v) as [v'|o] eqn:Hv; simpl.
  - destruct (copy_requests vs) as [copied res]; simpl in *.
    exists (v :: pre). split_and!; [by apply prefix_cons|by constructor|].
    intros Hok. by rewrite Hall.
  - exists []. split_and!; [apply prefix_nil|constructor|done].
Qed.

(** X11. actionTracker.DeepCopy only allocates: however it ends, the store
    it leaves is the store it found plus one new actionTracker, which has
    the action of the original and holds the deep copies of a prefix of the
    original's requests, of all of them when the call returns; a panic is
    the failed type assertion. *)
Theorem actionTracker_DeepCopy_allocates_only h l c :
  cells h !! l = Some c →
  ∃ res l' pre copies,
    actionTracker_DeepCopy (Some l) h
    = (mkHeap (trackers h) (maps h)
         (<[l' := mkActionTracker (action c) copies]> (cells h)), res)
    ∧ cells h !! l' = None
    ∧ pre `prefix_of` requests c ∧ Forall2 copy_of pre copies
    ∧ (res = Ok l' ∧ pre = requests c ∨ res = Panic TypeAssertion).
Proof.
  intros Hl. rewrite (actionTracker_DeepCopy_run _ _ _ Hl).
  destruct (copy_requests_prefix (requests c)) as (pre & Hpre & Hcopy & Hall).
  eexists _, (fresh (dom (cells h))), pre, _.
  split_and!; [done|apply not_elem_of_dom, is_fresh|done|done|].
  destruct (copy_requests_outcome (requests c)) as [Hok| ->]; [|by right].
  rewrite Hok. left. auto.
Qed.

Lemma all_copies_typed_iff (v : gmap Action (list T)) entries :
  entries ≡ₚ map_to_list v →
  (∀ k rs, v !! k = Some rs → (copy_requests rs).2 = Ok tt)
  ↔ Forall (λ r, ∃ r', DeepCopyT r = IsT r') (concat entries.*2).
Proof.
  intros Hent. rewrite Forall_concat, Forall_forall. split.
  - intros Hall rs ([k rs'] & -> & Hin)%list_elem_of_fmap.
    rewrite Hent in Hin. apply elem_of_map_to_list in Hin.
    eapply copy_requests_Ok, Hall, Hin.
  - intros Hall k rs Hk. apply copy_requests_Ok, Hall.
    apply list_elem_of_fmap. exists (k, rs). split; [done|].
    rewrite Hent. by apply elem_of_map_to_list.
Qed.

(** X12. AllActionsTracker.DeepCopy returns normally exactly when the deep
    copy of every record the tracker holds (the records AllRequests returns)
    has type T, and panics on the type assertion otherwise; whichever
    happens, every tracker that existed answers every query as before. *)
Theorem DeepCopy_returns_iff_copies_typed rng h a :
  reachable h → is_Some (trackers h !! a) → valid_range rng →
  ∃ h' res out,
    AllActionsTracker_DeepCopy rng a h = (h', res)
    ∧ AllActionsTracker_AllRequests rng a h = (h, Ok out)
    ∧ ((∃ a', res = Ok a') ↔ Forall (λ r, ∃ r', DeepCopyT r = IsT r') out)
    ∧ ((∃ a', res = Ok a' ∧ trackers h !! a' = None) ∨ res = Panic TypeAssertion)
    ∧ ∀ b, is_Some (trackers h !! b) → same_results h b h' b.
Proof.
  intros Hr Ha Hrng. pose proof (reachable_inv _ Hr) as Hinv.
  destruct (view_is_Some h a Hinv Ha) as [v Hv].
  destruct (DeepCopy_spec rng h a v Hinv Hrng Hv)
    as (h' & res & Hrun & I' & F' & _ & _ & Hor & Hiff & _).
  destruct (AllRequests_view rng h a v Hinv Hrng Hv) as (entries & Hent & Hall).
  exists h', res, (concat entries.*2). split_and!; [done|done| | |].
  - rewrite <-(all_copies_typed_iff v entries Hent), <-Hiff.
    split; [|eauto]. intros [a' ->]. destruct Hor as [?|?]; [done|congruence].
  - destruct Hor as [-> | ->]; [left|by right].
    eexists. split; [done|]. apply not_elem_of_dom, is_fresh.
  - intros b Hb. destruct (view_is_Some h b Hinv Hb) as [w Hw].
    apply (same_results_of_view _ _ _ _ w); [done..|]. by rewrite F'.
Qed.


End Tracker.

(** * A concrete record type, and the operations run on it *)

(** A request that carries its action and the name of the resource. *)
Record request : Type := mkRequest {
  req_action : Action;
  req_name : string;
}.

(** Deep copies of a [request] are requests with the same fields. *)
Definition request_DeepCopy (r : request) : @SerializedRequestish request unit :=
  IsT (mkRequest (req_action r) (req_name r)).

(** A deep copy that breaks the contract: the copy of a request named "raw"
    is a value of another type. *)
Definition request_DeepCopy_raw (r : request) : @SerializedRequestish request unit :=
  if decide (req_name r = "raw") then NotT tt else request_DeepCopy r.

Definition create_foo : request := mkRequest ActionCreate "foo".
Definition update_foo : request := mkRequest ActionUpdate "foo".
Definition create_bar : request := mkRequest ActionCreate "bar".
Definition delete_baz : request := mkRequest ActionDelete "baz".

(** t := NewAllActionsTracker(): the tracker is at location 1. *)
Definition store_new : @heap request := (NewAllActionsTracker empty_heap).1.

(** var z AllActionsTracker: the zero value, at location 1. *)
Definition store_zero : @heap request := (zero_AllActionsTracker empty_heap).1.

(** t.AddRequests(create_foo, update_foo, create_bar) *)
Definition store_three : @heap request :=
  (AllActionsTracker_AddRequests req_action 1
     [create_foo; update_foo; create_bar] store_new).1.

(** A store no public operation builds: the entry for "Update" points to an
    actionTracker whose action is "Delete". *)
Definition store_misrouted : @heap request :=
  mkHeap {[ 1%positive := mkAllActionsTracker (Some 1%positive) ]}
         {[ 1%positive := {[ ActionCreate := 1%positive; ActionUpdate := 2%positive ]} ]}
         {[ 1%positive := mkActionTracker ActionCreate [];
            2%positive := mkActionTracker ActionDelete [] ]}.

(** t.AddRequests(create_foo, raw) on a new tracker. *)
Definition create_raw : request := mkRequest ActionCreate "raw".
Definition store_raw : @heap request :=
  (AllActionsTracker_AddRequests req_action 1 [create_foo; create_raw] store_new).1.

Definition three_batches : list (list request) :=
  [[create_foo]; [update_foo; create_bar]].

(** c := t.DeepCopy() on the tracker of [store_three]: the copy is at
    location 2. *)
Definition store_copied : @heap request :=
  (AllActionsTracker_DeepCopy request_DeepCopy map_to_list 1 store_three).1.

Lemma reachable_store_new : reachable req_action request_DeepCopy store_new.
Proof. apply rtc_once. apply step_new. Qed.

Lemma reachable_store_zero : reachable req_action request_DeepCopy store_zero.
Proof. apply rtc_once. apply step_zero. Qed.

Lemma reachable_store_three : reachable req_action request_DeepCopy store_three.
Proof.
  eapply rtc_r; [apply reachable_store_new|].
  apply step_AddRequests. vm_compute. eauto.
Qed.

Lemma empty_tracker_store_new : empty_tracker store_new 1.
Proof. vm_compute. reflexivity. Qed.

Lemma empty_tracker_store_zero : empty_tracker store_zero 1.
Proof. vm_compute. exact I. Qed.

(** The scenario of the specification: Create foo, Update foo, Create bar. *)
Example scenario_ListActions :
  (AllActionsTracker_ListActions 1 store_three).2 = Ok [ActionCreate; ActionUpdate].
Proof. vm_compute. reflexivity. Qed.

Example scenario_RequestsForAction_Create :
  (AllActionsTracker_RequestsForAction 1 ActionCreate store_three).2
  = Ok [create_foo; create_bar].
Proof. vm_compute. reflexivity. Qed.

Example scenario_RequestsForAction_Delete :
  (AllActionsTracker_RequestsForAction 1 ActionDelete store_three).2
  = Panic NilDereference.
Proof. vm_compute. reflexivity. Qed.

Example scenario_AllRequests :
  (AllActionsTracker_AllRequests map_to_list 1 store_three).2
  = Ok [create_foo; create_bar; update_foo].
Proof. vm_compute. reflexivity. Qed.

(** The second scenario: copy a tracker holding three records of two
    actions, then add a record of a third action to the original only. *)
Example scenario_DeepCopy :
  let h1 := (AllActionsTracker_DeepCopy request_DeepCopy map_to_list 1 store_three).1 in
  let h2 := (AllActionsTracker_AddRequest req_action 1 delete_baz h1).1 in
  (AllActionsTracker_DeepCopy request_DeepCopy map_to_list 1 store_three).2 = Ok 2%positive
  ∧ (AllActionsTracker_ListActions 2 h2).2 = Ok [ActionCreate; ActionUpdate]
  ∧ (AllActionsTracker_ListActions 1 h2).2
    = Ok [ActionCreate; ActionDelete; ActionUpdate].
Proof. vm_compute. by split_and!. Qed.

(** ** The theorems at these inputs *)

Lemma request_DeepCopy_keeps_action : copy_keeps_action req_action request_DeepCopy.
Proof. intros v v' [= <-]. reflexivity. Qed.

Lemma request_DeepCopy_typed r : ∃ r', request_DeepCopy r = IsT r'.
Proof. eexists. reflexivity. Qed.

Lemma RequestsForAction_unseen_action_panics_witness :
  ∃ h', insert_all req_action 1 three_batches store_new = (h', Ok tt)
    ∧ AllActionsTracker_RequestsForAction 1 ActionDelete h'
      = (h', Panic NilDereference).
Proof.
  apply (RequestsForAction_unseen_action_panics req_action request_DeepCopy).
  - apply reachable_store_new.
  - apply empty_tracker_store_new.
  - intros r Hr. simpl in Hr.
    repeat (apply elem_of_cons in Hr as [->|Hr]); try discriminate.
    by apply elem_of_nil in Hr.
Defined.

Lemma RequestsForAction_insertion_order_witness :
  (∃ h', insert_all req_action 1 three_batches store_new = (h', Ok tt)
     ∧ AllActionsTracker_RequestsForAction 1 ActionCreate h'
       = (h', Ok [create_foo; create_bar]))
  ∧ (∃ h', insert_all req_action 1 three_batches store_new = (h', Ok tt)
       ∧ AllActionsTracker_RequestsForAction 1 ActionDelete h'
         = (h', Panic NilDereference)).
Proof.
  split.
  - apply (RequestsForAction_insertion_order req_action request_DeepCopy
             store_new 1 three_batches ActionCreate).
    + apply reachable_store_new.
    + apply empty_tracker_store_new.
  - apply (RequestsForAction_insertion_order req_action request_DeepCopy
             store_new 1 three_batches ActionDelete).
    + apply reachable_store_new.
    + apply empty_tracker_store_new.
Defined.

(** C2 as stated fails where no inserted record reports the action: after
    Create foo, Update foo, Create bar, RequestsForAction(Delete) is not the
    (empty) subsequence of the Delete records; the call panics. *)
Lemma RequestsForAction_unseen_not_subsequence :
  AllActionsTracker_RequestsForAction 1 ActionDelete store_three
  ≠ (store_three,
     Ok (filter (λ r, req_action r = ActionDelete)
           [create_foo; update_foo; create_bar])).
Proof. intros H. apply (f_equal snd) in H. vm_compute in H. discriminate. Qed.

(** C9 as stated fails for RequestsForAction, a public operation: on the
    zero-value tracker it does not return. *)
Lemma zero_value_RequestsForAction_not_total :
  ¬ ∃ h' rs, AllActionsTracker_RequestsForAction 1 ActionCreate store_zero
             = (h', Ok rs).
Proof.
  intros (h' & rs & H). apply (f_equal snd) in H. vm_compute in H. discriminate.
Qed.

Lemma AllRequests_union_of_actions_witness :
  (∃ out acts per_action,
     AllActionsTracker_AllRequests map_to_list 1 store_three = (store_three, Ok out)
     ∧ AllActionsTracker_ListActions 1 store_three = (store_three, Ok acts)
     ∧ Forall2 (λ k rs, AllActionsTracker_RequestsForAction 1 k store_three
                        = (store_three, Ok rs)) acts per_action
     ∧ out ≡ₚ concat per_action)
  ∧ (∃ h' out, insert_all req_action 1 three_batches store_new = (h', Ok tt)
       ∧ AllActionsTracker_AllRequests map_to_list 1 h' = (h', Ok out)
       ∧ out ≡ₚ concat three_batches ∧ length out = length (concat three_batches))
  ∧ (∃ h' rng1 rng2,
       insert_all req_action 1 [[create_foo]; [update_foo]] store_new = (h', Ok tt)
       ∧ valid_range rng1 ∧ valid_range rng2
       ∧ AllActionsTracker_AllRequests rng1 1 h' = (h', Ok [create_foo; update_foo])
       ∧ AllActionsTracker_AllRequests rng2 1 h' = (h', Ok [update_foo; create_foo])).
Proof.
  pose proof (AllRequests_union_of_actions req_action request_DeepCopy)
    as (HA & HB & HC).
  split_and!.
  - apply HA; [apply reachable_store_three | vm_compute; eauto
              | apply valid_range_map_to_list].
  - apply HB; [apply reachable_store_new | apply empty_tracker_store_new
              | apply valid_range_map_to_list].
  - apply HC; [apply reachable_store_new | apply empty_tracker_store_new
              | discriminate].
Defined.

Lemma ListActions_sorted_actions_with_records_witness :
  (∃ acts, AllActionsTracker_ListActions 1 store_three = (store_three, Ok acts)
     ∧ NoDup acts
     ∧ StronglySorted (λ x y, String.ltb x y = true) acts
     ∧ (∀ k, k ∈ acts ↔
             ∃ rs, AllActionsTracker_RequestsForAction 1 k store_three
                   = (store_three, Ok rs) ∧ rs ≠ [])
     ∧ bind (AllActionsTracker_ListActions 1) (λ l1,
         bind (AllActionsTracker_ListActions 1) (λ l2, ret (l1, l2))) store_three
       = (store_three, Ok (acts, acts)))
  ∧ (∃ h' acts, insert_all req_action 1 three_batches store_new = (h', Ok tt)
       ∧ AllActionsTracker_ListActions 1 h' = (h', Ok acts)
       ∧ ∀ k, k ∈ acts ↔ ∃ r, r ∈ concat three_batches ∧ req_action r = k).
Proof.
  pose proof (ListActions_sorted_actions_with_records req_action request_DeepCopy)
    as (HA & HB).
  split.
  - apply HA; [apply reachable_store_three | vm_compute; eauto].
  - apply HB; [apply reachable_store_new | apply empty_tracker_store_new].
Defined.

Lemma DeepCopy_equal_then_independent_witness :
  ∃ h' a',
    AllActionsTracker_DeepCopy request_DeepCopy map_to_list 1 store_three = (h', Ok a')
    ∧ a' ≠ 1%positive ∧ trackers store_three !! a' = None
    ∧ same_results store_three 1 h' 1
    ∧ copied_results request_DeepCopy h' 1 a'
    ∧ ∀ h1, rtc (step req_action request_DeepCopy) h' h1 →
        (∀ r, ∃ h2, AllActionsTracker_AddRequest req_action 1 r h1 = (h2, Ok tt)
                    ∧ same_results h1 a' h2 a')
        ∧ (∀ rs, ∃ h2, AllActionsTracker_AddRequests req_action 1 rs h1 = (h2, Ok tt)
                       ∧ same_results h1 a' h2 a')
        ∧ (∀ r, ∃ h2, AllActionsTracker_AddRequest req_action a' r h1 = (h2, Ok tt)
                      ∧ same_results h1 1 h2 1)
        ∧ (∀ rs, ∃ h2, AllActionsTracker_AddRequests req_action a' rs h1 = (h2, Ok tt)
                       ∧ same_results h1 1 h2 1).
Proof.
  apply (DeepCopy_equal_then_independent req_action request_DeepCopy
           map_to_list store_three 1).
  - apply reachable_store_three.
  - vm_compute. eauto.
  - apply valid_range_map_to_list.
  - apply request_DeepCopy_typed.
Defined.

Lemma AddRequest_aborts_iff_action_differs_witness :
  actionTracker_AddRequest req_action (Some 2%positive) update_foo store_misrouted
  = (store_misrouted, Panic CodingError)
  ∧ (AllActionsTracker_AddRequest req_action 1 update_foo store_three).2
    ≠ Panic CodingError
  ∧ ∃ h', AllActionsTracker_AddRequest req_action 1 update_foo store_three
          = (h', Ok tt).
Proof.
  pose proof (AddRequest_aborts_iff_action_differs req_action request_DeepCopy)
    as (HA & HB).
  split.
  - apply (HA store_misrouted 2%positive (mkActionTracker ActionDelete []) update_foo);
      [vm_compute; reflexivity | discriminate].
  - destruct (HB store_three 1%positive update_foo reachable_store_three)
      as [Hno Hok].
    split; [exact Hno|]. apply Hok. vm_compute. eauto.
Defined.

Lemma AddRequests_is_repeated_AddRequest_witness :
  let h1 := (AllActionsTracker_AddRequests req_action 1 [create_foo] store_misrouted).1 in
  AllActionsTracker_AddRequests req_action 1 [create_foo; update_foo; create_bar]
    store_misrouted
  = AddRequest_one_at_a_time req_action 1 [create_foo; update_foo; create_bar]
      store_misrouted
  ∧ h1 = h1
  ∧ AllActionsTracker_AddRequests req_action 1 ([create_foo] ++ update_foo :: [create_bar])
      store_misrouted
    = (h1, Panic CodingError).
Proof.
  intros h1.
  pose proof (AddRequests_is_repeated_AddRequest req_action) as (HA & HB).
  split; [apply HA|].
  apply (HB 1%positive [create_foo] update_foo [create_bar] store_misrouted h1 h1
           CodingError); vm_compute; reflexivity.
Defined.

Lemma reachable_tracker_invariant_witness :
  ∃ m, maps store_three !! 1%positive = Some m
    ∧ (∀ k l, m !! k = Some l →
         ∃ c, cells store_three !! l = Some c ∧ action c = k ∧ requests c ≠ []
              ∧ Forall (λ r, req_action r = k) (requests c))
    ∧ (∀ k l1 l2, m !! k = Some l1 → m !! k = Some l2 → l1 = l2)
    ∧ (∀ k1 k2 l, m !! k1 = Some l → m !! k2 = Some l → k1 = k2).
Proof.
  apply (reachable_tracker_invariant req_action request_DeepCopy store_three 1 1).
  - apply request_DeepCopy_keeps_action.
  - apply reachable_store_three.
  - vm_compute. reflexivity.
Defined.

Lemma zero_value_tracker_usable_witness :
  ∃ hz z hn n,
    zero_AllActionsTracker empty_heap = (hz, Ok z)
    ∧ NewAllActionsTracker empty_heap = (hn, Ok n)
    ∧ trackers hz !! z = Some (mkAllActionsTracker None)
    ∧ AllActionsTracker_ListActions z hz = (hz, Ok [])
    ∧ AllActionsTracker_ListActions n hn = (hn, Ok [])
    ∧ (∀ rng, valid_range rng →
         AllActionsTracker_AllRequests rng z hz = (hz, Ok [])
         ∧ AllActionsTracker_AllRequests rng n hn = (hn, Ok []))
    ∧ (∀ rng, valid_range rng →
         ∃ hz' cz hn' cn,
           AllActionsTracker_DeepCopy request_DeepCopy rng z hz = (hz', Ok cz)
           ∧ AllActionsTracker_DeepCopy request_DeepCopy rng n hn = (hn', Ok cn)
           ∧ cz ≠ z ∧ cn ≠ n
           ∧ AllActionsTracker_ListActions cz hz' = (hz', Ok [])
           ∧ AllActionsTracker_ListActions cn hn' = (hn', Ok [])
           ∧ AllActionsTracker_AllRequests rng cz hz' = (hz', Ok [])
           ∧ AllActionsTracker_AllRequests rng cn hn' = (hn', Ok []))
    ∧ (∀ r, ∃ hz' mref,
         AllActionsTracker_AddRequest req_action z r hz = (hz', Ok tt)
         ∧ trackers hz' !! z = Some (mkAllActionsTracker (Some mref))
         ∧ is_Some (maps hz' !! mref)
         ∧ AllActionsTracker_RequestsForAction z (req_action r) hz' = (hz', Ok [r]))
    ∧ (∀ bs, ∃ hz' hn',
         insert_all req_action z bs hz = (hz', Ok tt)
         ∧ insert_all req_action n bs hn = (hn', Ok tt)
         ∧ same_results hz' z hn' n)
    ∧ (∀ k, AllActionsTracker_RequestsForAction z k hz = (hz, Panic NilDereference)
            ∧ AllActionsTracker_RequestsForAction n k hn = (hn, Panic NilDereference)).
Proof.
  apply (zero_value_tracker_usable req_action request_DeepCopy empty_heap).
  apply rtc_refl.
Defined.

Lemma actionTracker_DeepCopy_type_assertion_witness :
  (∃ h', actionTracker_DeepCopy request_DeepCopy_raw (Some 1%positive) store_raw
         = (h', Panic TypeAssertion))
  ∧ ¬ (∃ h' l', actionTracker_DeepCopy request_DeepCopy_raw (Some 1%positive) store_raw
                = (h', Ok l'))
  ∧ (∃ h' l', actionTracker_DeepCopy request_DeepCopy (Some 1%positive) store_raw
              = (h', Ok l')).
Proof.
  assert (Hcell : cells store_raw !! 1%positive
                  = Some (mkActionTracker ActionCreate [create_foo; create_raw]))
    by (vm_compute; reflexivity).
  destruct (actionTracker_DeepCopy_type_assertion request_DeepCopy_raw
              store_raw 1 _ Hcell) as (Hiff & Hpanic & _).
  destruct (actionTracker_DeepCopy_type_assertion request_DeepCopy
              store_raw 1 _ Hcell) as (_ & _ & Hok).
  split_and!.
  - apply Hpanic. apply Exists_cons_tl, Exists_cons_hd. by exists tt.
  - intros Hret. apply Hiff in Hret.
    apply Forall_cons in Hret as [_ [[r' Hr'] _]%Forall_cons]. discriminate.
  - destruct (Hok request_DeepCopy_typed) as (h' & l' & ? & ? & _). eauto.
Defined.

(** ** The further properties at these inputs *)

Lemma reachable_store_copied : reachable req_action request_DeepCopy store_copied.
Proof.
  eapply rtc_r; [apply reachable_store_three|].
  apply step_DeepCopy; [vm_compute; eauto|apply valid_range_map_to_list].
Qed.

Lemma reachable_store_raw : reachable req_action request_DeepCopy_raw store_raw.
Proof.
  eapply rtc_r; [apply rtc_once, step_new|].
  apply step_AddRequests. vm_compute. eauto.
Qed.

Lemma AddRequest_then_RequestsForAction_witness :
  ∃ h', AllActionsTracker_AddRequest req_action 1 create_raw store_three = (h', Ok tt)
    ∧ AllActionsTracker_RequestsForAction 1 ActionCreate h'
      = (h', Ok [create_foo; create_bar; create_raw])
    ∧ ∀ k, k ≠ ActionCreate →
        (AllActionsTracker_RequestsForAction 1 k h').2
        = (AllActionsTracker_RequestsForAction 1 k store_three).2.
Proof.
  apply (AddRequest_then_RequestsForAction req_action request_DeepCopy
           store_three 1 create_raw).
  - apply reachable_store_three.
  - vm_compute. eauto.
Defined.

Lemma AddRequest_then_ListActions_witness :
  ∃ h' acts acts',
    AllActionsTracker_AddRequest req_action 1 delete_baz store_three = (h', Ok tt)
    ∧ AllActionsTracker_ListActions 1 store_three = (store_three, Ok acts)
    ∧ AllActionsTracker_ListActions 1 h' = (h', Ok acts')
    ∧ ∀ k, k ∈ acts' ↔ k ∈ acts ∨ k = ActionDelete.
Proof.
  apply (AddRequest_then_ListActions req_action request_DeepCopy
           store_three 1 delete_baz).
  - apply reachable_store_three.
  - vm_compute. eauto.
Defined.

Lemma AddRequest_then_AllRequests_witness :
  ∃ h' out out',
    AllActionsTracker_AddRequest req_action 1 delete_baz store_three = (h', Ok tt)
    ∧ AllActionsTracker_AllRequests map_to_list 1 store_three = (store_three, Ok out)
    ∧ AllActionsTracker_AllRequests (λ m, reverse (map_to_list m)) 1 h' = (h', Ok out')
    ∧ out' ≡ₚ out ++ [delete_baz] ∧ length out' = S (length out).
Proof.
  apply (AddRequest_then_AllRequests req_action request_DeepCopy
           store_three 1 delete_baz).
  - apply reachable_store_three.
  - vm_compute. eauto.
  - apply valid_range_map_to_list.
  - apply valid_range_reverse.
Defined.

Lemma AllRequests_blocks_by_action_witness :
  ∃ acts order blocks,
    AllActionsTracker_ListActions 1 store_three = (store_three, Ok acts)
    ∧ order ≡ₚ acts
    ∧ Forall2 (λ k rs, AllActionsTracker_RequestsForAction 1 k store_three
                       = (store_three, Ok rs)) order blocks
    ∧ AllActionsTracker_AllRequests (λ m, reverse (map_to_list m)) 1 store_three
      = (store_three, Ok (concat blocks)).
Proof.
  apply (AllRequests_blocks_by_action req_action request_DeepCopy).
  - apply reachable_store_three.
  - vm_compute. eauto.
  - apply valid_range_reverse.
Defined.

Lemma AddRequests_keeps_map_and_entries_witness :
  trackers (AllActionsTracker_AddRequests req_action 1 [delete_baz; update_foo]
              store_misrouted).1 !! 1%positive
  = Some (mkAllActionsTracker (Some 1%positive))
  ∧ ∃ m', maps (AllActionsTracker_AddRequests req_action 1 [delete_baz; update_foo]
                  store_misrouted).1 !! 1%positive = Some m'
      ∧ {[ ActionCreate := 1%positive; ActionUpdate := 2%positive ]} ⊆ m'
      ∧ ∀ k, (∀ r, r ∈ [delete_baz; update_foo] → req_action r ≠ k) →
             m' !! k
             = ({[ ActionCreate := 1%positive; ActionUpdate := 2%positive ]}
                  : gmap Action positive) !! k.
Proof.
  apply (AddRequests_keeps_map_and_entries req_action 1 [delete_baz; update_foo]
           store_misrouted 1); vm_compute; reflexivity.
Defined.

Lemma reachable_trackers_share_nothing_witness :
  (1 ≠ 2)%positive
  ∧ ∀ ta tb ka kb l,
      maps store_copied !! 1%positive = Some ta →
      maps store_copied !! 2%positive = Some tb →
      ta !! ka = Some l → tb !! kb ≠ Some l.
Proof.
  apply (reachable_trackers_share_nothing req_action request_DeepCopy
           store_copied 1 2 1 2).
  - apply reachable_store_copied.
  - discriminate.
  - vm_compute. reflexivity.
  - vm_compute. reflexivity.
Defined.

Lemma insertion_leaves_other_trackers_witness :
  ∃ h', AllActionsTracker_AddRequests req_action 2 [delete_baz; create_raw] store_copied
        = (h', Ok tt)
    ∧ same_results store_copied 1 h' 1.
Proof.
  apply (insertion_leaves_other_trackers req_action request_DeepCopy
           store_copied 2 1).
  - apply reachable_store_copied.
  - vm_compute. eauto.
  - vm_compute. eauto.
  - discriminate.
Defined.

Lemma insertions_of_different_actions_commute_witness :
  ∃ h12 h21,
    AllActionsTracker_AddRequests req_action 1 [delete_baz; create_raw] store_three
    = (h12, Ok tt)
    ∧ AllActionsTracker_AddRequests req_action 1 [create_raw; delete_baz] store_three
      = (h21, Ok tt)
    ∧ (req_action delete_baz ≠ req_action create_raw → same_results h12 1 h21 1)
    ∧ (req_action delete_baz = req_action create_raw → delete_baz ≠ create_raw →
       (AllActionsTracker_RequestsForAction 1 (req_action delete_baz) h12).2
       ≠ (AllActionsTracker_RequestsForAction 1 (req_action delete_baz) h21).2).
Proof.
  apply (insertions_of_different_actions_commute req_action request_DeepCopy
           store_three 1 delete_baz create_raw).
  - apply reachable_store_three.
  - vm_compute. eauto.
Defined.

Lemma actionTracker_DeepCopy_allocates_only_witness :
  ∃ res l' pre copies,
    actionTracker_DeepCopy request_DeepCopy_raw (Some 1%positive) store_raw
    = (mkHeap (trackers store_raw) (maps store_raw)
         (<[l' := mkActionTracker ActionCreate copies]> (cells store_raw)), res)
    ∧ cells store_raw !! l' = None
    ∧ pre `prefix_of` [create_foo; create_raw]
    ∧ Forall2 (copy_of request_DeepCopy_raw) pre copies
    ∧ (res = Ok l' ∧ pre = [create_foo; create_raw] ∨ res = Panic TypeAssertion).
Proof.
  apply (actionTracker_DeepCopy_allocates_only request_DeepCopy_raw store_raw 1
           (mkActionTracker ActionCreate [create_foo; create_raw])).
  vm_compute. reflexivity.
Defined.

Lemma DeepCopy_returns_iff_copies_typed_witness :
  ∃ h' res out,
    AllActionsTracker_DeepCopy request_DeepCopy_raw map_to_list 1 store_raw = (h', res)
    ∧ AllActionsTracker_AllRequests map_to_list 1 store_raw = (store_raw, Ok out)
    ∧ ((∃ a', res = Ok a')
       ↔ Forall (λ r, ∃ r', request_DeepCopy_raw r = IsT r') out)
    ∧ ((∃ a', res = Ok a' ∧ trackers store_raw !! a' = None)
       ∨ res = Panic TypeAssertion)
    ∧ ∀ b, is_Some (trackers store_raw !! b) → same_results store_raw b h' b.
Proof.
  apply (DeepCopy_returns_iff_copies_typed req_action request_DeepCopy_raw
           map_to_list store_raw 1).
  - apply reachable_store_raw.
  - vm_compute. eauto.
  - apply valid_range_map_to_list.
Defined.


(** The copy of the contract-breaking store panics, and the source still
    answers. *)
Example DeepCopy_raw_panics :
  (AllActionsTracker_DeepCopy request_DeepCopy_raw map_to_list 1 store_raw).2
  = Panic TypeAssertion
  ∧ (AllActionsTracker_RequestsForAction 1 ActionCreate
       (AllActionsTracker_DeepCopy request_DeepCopy_raw map_to_list 1 store_raw).1).2
    = Ok [create_foo; create_raw].
Proof. vm_compute. by split. Qed.
